(** * flow.ts: Item, Flow, EntryFlow and PromiseFlow

    A shallow embedding of [src/flow.ts].  Each class of the file is a
    module that keeps the method names of the source; [of], which Rocq
    reserves, is written [of_], and [Item.flow], which needs both [Item]
    and [Flow], is [Item_flow].

    Conventions of the embedding:
    - a JavaScript value is a [jsval]; numbers are the integers (no NaN, no
      signed zero, no fractions), strings are 8-bit character strings;
    - an iterator (an element of [iterators] in [Flow], [EntryFlow] and
      [PromiseFlow]) is represented by the list of the elements it has yet
      to produce; pulling an element takes the head of that list;
    - a method that can [throw] returns a [completion];
    - a pending computation is represented by the way it settles
      ([promise]). *)

From Stdlib Require Import String Ascii Numbers.DecimalString.
From Stdlib Require Import ZArith Bool Lia PeanoNat List.
From Stdlib Require Import Sorting.Permutation Sorting.Sorted.
Import ListNotations.

Local Open Scope string_scope.
Local Open Scope Z_scope.
Local Open Scope list_scope.

(** ** JavaScript values *)

(** Arrays and plain objects carry the reference they are identified by:
    [===] on objects compares references, not contents.  Every host iterable
    that is handed to the library as a value (an array, a [Set], an
    iterator, another flow) is represented by [VArr] with the elements its
    iterator produces. *)
#[warnings="-register-all"]
Inductive jsval : Type :=
| VUndefined
| VNull
| VBool (b : bool)
| VNum (n : Z)
| VStr (s : string)
| VArr (ref : nat) (elems : list jsval)
| VObj (ref : nat).

(** [v == null] *)
Definition is_nullish (v : jsval) : bool :=
  match v with
  | VUndefined | VNull => true
  | _ => false
  end.

(** ToBoolean: the test of [if (v)] and of [v && ...]. *)
Definition truthy (v : jsval) : bool :=
  match v with
  | VUndefined | VNull => false
  | VBool b => b
  | VNum n => negb (n =? 0)
  | VStr s => negb (String.eqb s "")
  | VArr _ _ | VObj _ => true
  end.

(** [x === y] *)
Definition strict_eq (x y : jsval) : bool :=
  match x, y with
  | VUndefined, VUndefined => true
  | VNull, VNull => true
  | VBool a, VBool b => Bool.eqb a b
  | VNum a, VNum b => a =? b
  | VStr a, VStr b => String.eqb a b
  | VArr r _, VArr r' _ => Nat.eqb r r'
  | VObj r, VObj r' => Nat.eqb r r'
  | _, _ => false
  end.

(** SameValueZero, the key equality of [Map] and [Set]; it differs from
    [===] on NaN and on signed zeros only, which integers do not have. *)
Definition same_value_zero (x y : jsval) : bool := strict_eq x y.

(** The characters of a string as one-character strings: what the string
    iterator yields. *)
Fixpoint chars (s : string) : list jsval :=
  match s with
  | EmptyString => []
  | String c s' => VStr (String c EmptyString) :: chars s'
  end.

(** [v?.[Symbol.iterator]]: [Some it] when [typeof] of it is ['function'],
    with [it] the elements the iterator produces. *)
Definition iterator (v : jsval) : option (list jsval) :=
  match v with
  | VStr s => Some (chars s)
  | VArr _ elems => Some elems
  | _ => None
  end.

(** ToString on an integer number. *)
Definition number_to_string (n : Z) : string :=
  NilZero.string_of_int (Z.to_int n).

(** ToString. *)
Fixpoint to_string (v : jsval) : string :=
  match v with
  | VUndefined => "undefined"
  | VNull => "null"
  | VBool true => "true"
  | VBool false => "false"
  | VNum n => number_to_string n
  | VStr s => s
  | VArr _ elems =>
      let element (x : jsval) : string :=
        if is_nullish x then "" else to_string x in
      (fix join (l : list jsval) : string :=
         match l with
         | [] => ""
         | x :: l' =>
             match l' with
             | [] => element x
             | _ :: _ => (element x ++ "," ++ join l')%string
             end
         end) elems
  | VObj _ => "[object Object]"
  end.

(** The outcome of a call: a normal return or a [throw]. *)
Inductive completion (A : Type) : Type :=
| Return (a : A)
| Throw (error : jsval).
Arguments Return {A} a.
Arguments Throw {A} error.

(** ** Array.prototype.sort

    The host's sort, as ECMAScript specifies it.  [SortCompare] is the
    comparison the sort uses: [undefined] goes last and never reaches the
    comparator; without a comparator the elements are compared as strings,
    by code units.  The sort is stable; insertion from the right is one
    sort that meets that contract. *)

Definition string_order (a b : string) : Z :=
  match String.compare a b with
  | Lt => -1
  | Eq => 0
  | Gt => 1
  end.

Definition SortCompare (comparator : option (jsval -> jsval -> Z))
    (x y : jsval) : Z :=
  match x, y with
  | VUndefined, VUndefined => 0
  | VUndefined, _ => 1
  | _, VUndefined => -1
  | _, _ =>
      match comparator with
      | Some comparefn => comparefn x y
      | None => string_order (to_string x) (to_string y)
      end
  end.

Fixpoint sort_insert (compare : jsval -> jsval -> Z) (x : jsval)
    (sorted : list jsval) : list jsval :=
  match sorted with
  | [] => [x]
  | y :: rest =>
      if compare x y <=? 0 then x :: y :: rest
      else y :: sort_insert compare x rest
  end.

Definition array_sort (comparator : option (jsval -> jsval -> Z))
    (array : list jsval) : list jsval :=
  fold_right (sort_insert (SortCompare comparator)) [] array.

(** ** class Item *)

Module Item.

Record Item : Type := new { value : jsval }.

Definition of_ (value : jsval) : Item := new value.

Definition empty : Item := new VUndefined.

Definition isEmpty (this : Item) : bool := is_nullish (value this).

Definition isPresent (this : Item) : bool := negb (isEmpty this).

Definition flatMap (mapper : jsval -> Item) (this : Item) : Item :=
  if isEmpty this then empty else mapper (value this).

Definition map (mapper : jsval -> jsval) (this : Item) : Item :=
  if isEmpty this then empty else of_ (mapper (value this)).

Definition filter (predicate : jsval -> bool) (this : Item) : Item :=
  if isEmpty this then this
  else if predicate (value this) then this else empty.

(** [return this.value!]: the non-null assertion is erased by the
    compiler, the field is returned as it is. *)
Definition get (this : Item) : completion jsval := Return (value this).

Definition orElse (other : jsval) (this : Item) : jsval :=
  if isPresent this then value this else other.

(** The argument of [orElseThrow]: an error value or a supplier of one. *)
Inductive supplierOrError : Type :=
| AnError (error : jsval)
| ASupplier (supplier : unit -> jsval).

Definition orElseThrow (arg : supplierOrError) (this : Item)
  : completion jsval :=
  if isEmpty this then
    Throw (match arg with
           | AnError error => error
           | ASupplier supplier => supplier tt
           end)
  else Return (value this).

Definition filterBy (extractor : jsval -> jsval) (predicate : jsval -> bool)
    (this : Item) : Item :=
  if isEmpty this then this
  else
    let mapped := extractor (value this) in
    if is_nullish mapped then empty
    else if predicate mapped then this else empty.

Definition or (supplier : unit -> Item) (this : Item) : Item :=
  if isPresent this then this else supplier tt.

Definition orElseGet (supplier : unit -> jsval) (this : Item) : jsval :=
  if isPresent this then value this else supplier tt.

End Item.

(** ** Set

    The host's [Set]: values compared by SameValueZero, kept in the order
    in which they were first added. *)

Module JsSet.

Definition t := list jsval.

Definition has (set : t) (value : jsval) : bool :=
  existsb (fun v => same_value_zero v value) set.

Definition add (set : t) (value : jsval) : t :=
  if has set value then set else set ++ [value].

(** [new Set(iterable)] *)
Definition from_iterable (it : list jsval) : t := fold_left add it [].

(** The iterator of the set. *)
Definition values (set : t) : list jsval := set.

End JsSet.

(** ** class Flow *)

Module Flow.

Record Flow : Type := new { iterators : list (list jsval) }.

(** [const [valueOrValues, ...otherValues] = arguments] *)
Definition valueOrValues (arguments : list jsval) : jsval :=
  hd VUndefined arguments.
Definition otherValues (arguments : list jsval) : list jsval :=
  tl arguments.

(** The source that [of], [append] and [prepend] build from their
    arguments: the iterator of the only argument when it has one,
    otherwise the iterator of the array of all the arguments. *)
Definition source (arguments : list jsval) : list jsval :=
  match otherValues arguments, iterator (valueOrValues arguments) with
  | [], Some it => it
  | _, _ => valueOrValues arguments :: otherValues arguments
  end.

(** [Flow.of(...)]; the second branch calls [Flow.of] on an array, which
    takes the first branch. *)
Definition of_ (arguments : list jsval) : Flow := new [source arguments].

(** [Flow.of(iterable)] on a host iterable with the given elements. *)
Definition of_iterable (it : list jsval) : Flow := new [it].

Definition empty : Flow := new [].

(** [[Symbol.iterator]()]: the sources one after the other. *)
Definition iterate (this : Flow) : list jsval := concat (iterators this).

Definition append (arguments : list jsval) (this : Flow) : Flow :=
  new (iterators this ++ [source arguments]).

Definition prepend (arguments : list jsval) (this : Flow) : Flow :=
  new (source arguments :: iterators this).

Definition toArray (this : Flow) : list jsval := iterate this.

Fixpoint count_loop (count : nat) (it : list jsval) : nat :=
  match it with
  | [] => count
  | _ :: rest => count_loop (S count) rest
  end.

Definition count (this : Flow) : nat := count_loop 0 (iterate this).

(** The terminal loops that can stop early return, next to their result,
    what is left of the iterator when they return. *)
Definition findFirst_rest (this : Flow) : Item.Item * list jsval :=
  match iterate this with
  | value :: rest => (Item.of_ value, rest)
  | [] => (Item.empty, [])
  end.

Definition findFirst (this : Flow) : Item.Item := fst (findFirst_rest this).

(** [Array.from(this)] *)
Definition Array_from (this : Flow) : list jsval := iterate this.

Definition sort (comparator : option (jsval -> jsval -> Z)) (this : Flow)
  : Flow :=
  of_iterable (array_sort comparator (Array_from this)).

Definition sortBy (extractor : jsval -> jsval)
    (comparator : jsval -> jsval -> Z) (this : Flow) : Flow :=
  of_iterable
    (array_sort
       (Some (fun x y => comparator (extractor x) (extractor y)))
       (Array_from this)).

(** [some] and [every], instrumented: next to the result, the calls of
    the predicate (its two arguments, in the order of the calls) and what
    is left of the iterator when the loop returns. *)
Fixpoint some_loop (predicate : jsval -> nat -> bool) (index : nat)
    (it : list jsval) : bool * list (jsval * nat) * list jsval :=
  match it with
  | [] => (false, [], [])
  | value :: rest =>
      if predicate value index then (true, [(value, index)], rest)
      else
        let '(result, calls, remaining) :=
          some_loop predicate (S index) rest in
        (result, (value, index) :: calls, remaining)
  end.

Definition some_run (predicate : jsval -> nat -> bool) (this : Flow) :=
  some_loop predicate 0%nat (iterate this).

Definition some (predicate : jsval -> nat -> bool) (this : Flow) : bool :=
  fst (fst (some_run predicate this)).

Fixpoint every_loop (predicate : jsval -> nat -> bool) (index : nat)
    (it : list jsval) : bool * list (jsval * nat) * list jsval :=
  match it with
  | [] => (true, [], [])
  | value :: rest =>
      if negb (predicate value index) then (false, [(value, index)], rest)
      else
        let '(result, calls, remaining) :=
          every_loop predicate (S index) rest in
        (result, (value, index) :: calls, remaining)
  end.

Definition every_run (predicate : jsval -> nat -> bool) (this : Flow) :=
  every_loop predicate 0%nat (iterate this).

Definition every (predicate : jsval -> nat -> bool) (this : Flow) : bool :=
  fst (fst (every_run predicate this)).

Definition none (predicate : jsval -> nat -> bool) (this : Flow) : bool :=
  negb (some predicate this).

(** [Flow.constant(value, length)]: the iterator of an array of [length]
    copies of [value]. *)
Definition constant (value : jsval) (length : nat) : Flow :=
  of_iterable (repeat value length).

(** The generators of the lazy operations; a callback gets the element and
    its index. *)
Fixpoint flatMap_loop (mapper : jsval -> nat -> list jsval) (index : nat)
    (it : list jsval) : list jsval :=
  match it with
  | [] => []
  | value :: rest => mapper value index ++ flatMap_loop mapper (S index) rest
  end.

Definition flatMap (mapper : jsval -> nat -> list jsval) (this : Flow)
  : Flow :=
  of_iterable (flatMap_loop mapper 0 (iterate this)).

Fixpoint map_loop (mapper : jsval -> nat -> jsval) (index : nat)
    (it : list jsval) : list jsval :=
  match it with
  | [] => []
  | value :: rest => mapper value index :: map_loop mapper (S index) rest
  end.

Definition map (mapper : jsval -> nat -> jsval) (this : Flow) : Flow :=
  of_iterable (map_loop mapper 0 (iterate this)).

Fixpoint filter_loop (predicate : jsval -> nat -> bool) (index : nat)
    (it : list jsval) : list jsval :=
  match it with
  | [] => []
  | value :: rest =>
      if predicate value index
      then value :: filter_loop predicate (S index) rest
      else filter_loop predicate (S index) rest
  end.

Definition filter (predicate : jsval -> nat -> bool) (this : Flow) : Flow :=
  of_iterable (filter_loop predicate 0 (iterate this)).

Fixpoint filterBy_loop (extractor : jsval -> nat -> jsval)
    (predicate : jsval -> nat -> bool) (index : nat) (it : list jsval)
  : list jsval :=
  match it with
  | [] => []
  | value :: rest =>
      if predicate (extractor value index) index
      then value :: filterBy_loop extractor predicate (S index) rest
      else filterBy_loop extractor predicate (S index) rest
  end.

Definition filterBy (extractor : jsval -> nat -> jsval)
    (predicate : jsval -> nat -> bool) (this : Flow) : Flow :=
  of_iterable (filterBy_loop extractor predicate 0 (iterate this)).

Definition remove (predicate : jsval -> nat -> bool) (this : Flow) : Flow :=
  filter (fun value index => negb (predicate value index)) this.

Definition removeBy (extractor : jsval -> nat -> jsval)
    (predicate : jsval -> nat -> bool) (this : Flow) : Flow :=
  filterBy extractor (fun mapped index => negb (predicate mapped index)) this.

Definition without (arguments : list jsval) (this : Flow) : Flow :=
  let filtered := JsSet.from_iterable arguments in
  filter (fun value _ => negb (JsSet.has filtered value)) this.

Definition nonNull (this : Flow) : Flow :=
  filter (fun value _ => negb (is_nullish value)) this.

Definition reverse (this : Flow) : Flow :=
  of_iterable (rev (Array_from this)).

Definition toSet (this : Flow) : JsSet.t :=
  JsSet.from_iterable (iterate this).

Definition distinct (this : Flow) : Flow :=
  of_iterable (JsSet.values (JsSet.from_iterable (iterate this))).

Fixpoint reduce_loop {U : Type} (reducer : U -> jsval -> nat -> U)
    (index : nat) (accumulator : U) (it : list jsval) : U :=
  match it with
  | [] => accumulator
  | value :: rest =>
      reduce_loop reducer (S index) (reducer accumulator value index) rest
  end.

Definition reduce {U : Type} (reducer : U -> jsval -> nat -> U)
    (initialValue : U) (this : Flow) : U :=
  reduce_loop reducer 0 initialValue (iterate this).

(** [into(array)]: the elements are pushed onto the array given. *)
Fixpoint into_array_loop (array : list jsval) (it : list jsval)
  : list jsval :=
  match it with
  | [] => array
  | value :: rest => into_array_loop (array ++ [value]) rest
  end.

Definition into_array (array : list jsval) (this : Flow) : list jsval :=
  into_array_loop array (iterate this).

(** [into(set)] *)
Definition into_set (set : JsSet.t) (this : Flow) : JsSet.t :=
  fold_left JsSet.add (iterate this) set.

End Flow.

(** [Item.flow] *)
Definition Item_flow (this : Item.Item) : Flow.Flow :=
  if Item.isEmpty this then Flow.empty else Flow.of_ [Item.value this].

(** ** Map

    The host's [Map], as far as [grouping] uses it: keys compared by
    SameValueZero, entries kept in the order of the first insertion of their
    key. *)

Module JsMap.
Section Ops.
Context {V : Type}.

Definition t := list (jsval * V).

Fixpoint has (map : t) (key : jsval) : bool :=
  match map with
  | [] => false
  | (k, _) :: map' => same_value_zero k key || has map' key
  end.

Fixpoint get (map : t) (key : jsval) : option V :=
  match map with
  | [] => None
  | (k, v) :: map' => if same_value_zero k key then Some v else get map' key
  end.

Fixpoint set (map : t) (key : jsval) (v : V) : t :=
  match map with
  | [] => [(key, v)]
  | (k, v') :: map' =>
      if same_value_zero k key then (k, v) :: map'
      else (k, v') :: set map' key v
  end.

(** A mutation of the object that [map.get(key)] returns: the map holds
    the object itself, so the mutation shows in the map. *)
Fixpoint update (map : t) (key : jsval) (f : V -> V) : t :=
  match map with
  | [] => []
  | (k, v) :: map' =>
      if same_value_zero k key then (k, f v) :: map'
      else (k, v) :: update map' key f
  end.

Definition entries (map : t) : list (jsval * V) := map.
End Ops.
Arguments t V : clear implicits.
End JsMap.

(** ** class EntryFlow *)

Module EntryFlow.

Record EntryFlow (K V : Type) : Type :=
  new { iterators : list (list (K * V)) }.
Arguments new {K V} iterators.
Arguments iterators {K V} e.

(** The argument of [of], [append] and [prepend]: a value with an
    iterator of entries (an iterator, a [Map]), or a plain record, given
    by what [Object.entries] returns on it. *)
Inductive source (K V : Type) : Type :=
| Iterable (it : list (K * V))
| PlainRecord (entries : list (K * V)).
Arguments Iterable {K V} it.
Arguments PlainRecord {K V} entries.

Section Methods.
Context {K V : Type}.

Definition of_ (valueOrValues : source K V) : EntryFlow K V :=
  match valueOrValues with
  | Iterable it => new [it]
  | PlainRecord entries => new [entries]
  end.

Definition empty : EntryFlow K V := new [].

Definition iterate (this : EntryFlow K V) : list (K * V) :=
  concat (iterators this).

Definition append (valueOrValues : source K V) (this : EntryFlow K V)
  : EntryFlow K V :=
  match valueOrValues with
  | Iterable it => new (it :: iterators this)
  | PlainRecord entries => new (entries :: iterators this)
  end.

Definition prepend (valueOrValues : source K V) (this : EntryFlow K V)
  : EntryFlow K V :=
  match valueOrValues with
  | Iterable it => new (it :: iterators this)
  | PlainRecord entries => new (iterators this ++ [entries])
  end.

Definition toArray (this : EntryFlow K V) : list (K * V) := iterate this.

(** The generators of [filterKeys] and [filterValues], instrumented:
    the entries they yield and the calls of the predicate (its two
    arguments, in the order of the calls). *)
Fixpoint filterKeys_loop (predicate : K -> nat -> bool) (index : nat)
    (it : list (K * V)) : list (K * V) * list (K * nat) :=
  match it with
  | [] => ([], [])
  | entry :: rest =>
      let '(yielded, calls) :=
        filterKeys_loop predicate (S index) rest in
      if predicate (fst entry) index
      then (entry :: yielded, (fst entry, index) :: calls)
      else (yielded, (fst entry, index) :: calls)
  end.

Definition filterKeys (predicate : K -> nat -> bool)
    (this : EntryFlow K V) : EntryFlow K V :=
  of_ (Iterable (fst (filterKeys_loop predicate 0%nat (iterate this)))).

Fixpoint filterValues_loop (predicate : V -> nat -> bool) (index : nat)
    (it : list (K * V)) : list (K * V) * list (V * nat) :=
  match it with
  | [] => ([], [])
  | entry :: rest =>
      if predicate (snd entry) index
      then
        let '(yielded, calls) :=
          filterValues_loop predicate (S index) rest in
        (entry :: yielded, (snd entry, index) :: calls)
      else
        let '(yielded, calls) :=
          filterValues_loop predicate index rest in
        (yielded, (snd entry, index) :: calls)
  end.

Definition filterValues (predicate : V -> nat -> bool)
    (this : EntryFlow K V) : EntryFlow K V :=
  of_ (Iterable (fst (filterValues_loop predicate 0%nat (iterate this)))).

End Methods.

Section Keyed.
Context {V : Type}.

(** The generator of [collapseKeys]; [collapseKey] starts as
    [undefined], [collapseValues] as the empty array. *)
Fixpoint collapseKeys_loop (collapseKey : jsval) (collapseValues : list V)
    (it : list (jsval * V)) : list (jsval * list V) :=
  match it with
  | [] =>
      if truthy collapseKey then [(collapseKey, collapseValues)] else []
  | (key, value) :: rest =>
      if truthy collapseKey && negb (strict_eq collapseKey key)
      then (collapseKey, collapseValues)
             :: collapseKeys_loop key ([] ++ [value]) rest
      else collapseKeys_loop key (collapseValues ++ [value]) rest
  end.

Definition collapseKeys (this : EntryFlow jsval V)
  : EntryFlow jsval (list V) :=
  of_ (Iterable (collapseKeys_loop VUndefined [] (iterate this))).

(** The generator of [grouping]. *)
Fixpoint grouping_loop (map : JsMap.t (list V)) (it : list (jsval * V))
  : list (jsval * list V) :=
  match it with
  | [] => JsMap.entries map
  | (key, value) :: rest =>
      let map :=
        if negb (JsMap.has map key) then JsMap.set map key [] else map in
      let map := JsMap.update map key (fun values => values ++ [value]) in
      grouping_loop map rest
  end.

Definition grouping (this : EntryFlow jsval V)
  : EntryFlow jsval (list V) :=
  of_ (Iterable (grouping_loop [] (iterate this))).

End Keyed.

Section Transformations.
Context {K V U W : Type}.

Fixpoint flatMap_loop (mapper : K -> V -> nat -> list (U * W)) (index : nat)
    (it : list (K * V)) : list (U * W) :=
  match it with
  | [] => []
  | (key, value) :: rest =>
      mapper key value index ++ flatMap_loop mapper (S index) rest
  end.

Definition flatMap (mapper : K -> V -> nat -> list (U * W))
    (this : EntryFlow K V) : EntryFlow U W :=
  of_ (Iterable (flatMap_loop mapper 0 (iterate this))).

Fixpoint map_loop (mapper : K -> V -> nat -> U * W) (index : nat)
    (it : list (K * V)) : list (U * W) :=
  match it with
  | [] => []
  | (key, value) :: rest =>
      mapper key value index :: map_loop mapper (S index) rest
  end.

Definition map (mapper : K -> V -> nat -> U * W) (this : EntryFlow K V)
  : EntryFlow U W :=
  of_ (Iterable (map_loop mapper 0 (iterate this))).

Fixpoint mapKeys_loop (mapper : K -> nat -> U) (index : nat)
    (it : list (K * V)) : list (U * V) :=
  match it with
  | [] => []
  | (key, value) :: rest =>
      (mapper key index, value) :: mapKeys_loop mapper (S index) rest
  end.

Definition mapKeys (mapper : K -> nat -> U) (this : EntryFlow K V)
  : EntryFlow U V :=
  of_ (Iterable (mapKeys_loop mapper 0 (iterate this))).

Fixpoint mapValues_loop (mapper : V -> nat -> W) (index : nat)
    (it : list (K * V)) : list (K * W) :=
  match it with
  | [] => []
  | (key, value) :: rest =>
      (key, mapper value index) :: mapValues_loop mapper (S index) rest
  end.

Definition mapValues (mapper : V -> nat -> W) (this : EntryFlow K V)
  : EntryFlow K W :=
  of_ (Iterable (mapValues_loop mapper 0 (iterate this))).

Fixpoint filter_loop (predicate : K -> V -> nat -> bool) (index : nat)
    (it : list (K * V)) : list (K * V) :=
  match it with
  | [] => []
  | entry :: rest =>
      if predicate (fst entry) (snd entry) index
      then entry :: filter_loop predicate (S index) rest
      else filter_loop predicate (S index) rest
  end.

Definition filter (predicate : K -> V -> nat -> bool) (this : EntryFlow K V)
  : EntryFlow K V :=
  of_ (Iterable (filter_loop predicate 0 (iterate this))).

(** [remove], [removeKeys] and [removeValues] wrap the predicate in an
    arrow function that does not pass the index on: the predicate is
    called with its index parameter [undefined]. *)
Definition remove (predicate : K -> V -> option nat -> bool)
    (this : EntryFlow K V) : EntryFlow K V :=
  filter (fun key value _ => negb (predicate key value None)) this.

Definition removeKeys (predicate : K -> option nat -> bool)
    (this : EntryFlow K V) : EntryFlow K V :=
  filterKeys (fun key _ => negb (predicate key None)) this.

Definition removeValues (predicate : V -> option nat -> bool)
    (this : EntryFlow K V) : EntryFlow K V :=
  filterValues (fun value _ => negb (predicate value None)) this.

Definition reverse (this : EntryFlow K V) : EntryFlow K V :=
  of_ (Iterable (rev (iterate this))).

Fixpoint invert_loop (it : list (K * V)) : list (V * K) :=
  match it with
  | [] => []
  | (key, value) :: rest => (value, key) :: invert_loop rest
  end.

Definition invert (this : EntryFlow K V) : EntryFlow V K :=
  of_ (Iterable (invert_loop (iterate this))).

Fixpoint count_loop (count : nat) (it : list (K * V)) : nat :=
  match it with
  | [] => count
  | _ :: rest => count_loop (S count) rest
  end.

Definition count (this : EntryFlow K V) : nat :=
  count_loop 0 (iterate this).

Fixpoint reduce_loop (reducer : U -> K -> V -> nat -> U) (index : nat)
    (accumulator : U) (it : list (K * V)) : U :=
  match it with
  | [] => accumulator
  | (key, value) :: rest =>
      reduce_loop reducer (S index) (reducer accumulator key value index) rest
  end.

Definition reduce (reducer : U -> K -> V -> nat -> U) (initialValue : U)
    (this : EntryFlow K V) : U :=
  reduce_loop reducer 0 initialValue (iterate this).

End Transformations.

Section KeyedByValue.
Context {V : Type}.

Definition nonNullKeys (this : EntryFlow jsval V) : EntryFlow jsval V :=
  filterKeys (fun key _ => negb (is_nullish key)) this.

(** The generator of [distinctKeys]; [keys] starts as the empty set. *)
Fixpoint distinctKeys_loop (keys : JsSet.t) (it : list (jsval * V))
  : list (jsval * V) :=
  match it with
  | [] => []
  | entry :: rest =>
      if negb (JsSet.has keys (fst entry))
      then entry :: distinctKeys_loop (JsSet.add keys (fst entry)) rest
      else distinctKeys_loop keys rest
  end.

Definition distinctKeys (this : EntryFlow jsval V) : EntryFlow jsval V :=
  of_ (Iterable (distinctKeys_loop [] (iterate this))).

Fixpoint keys_loop (it : list (jsval * V)) : list jsval :=
  match it with
  | [] => []
  | (key, _) :: rest => key :: keys_loop rest
  end.

Definition keys (this : EntryFlow jsval V) : Flow.Flow :=
  Flow.of_iterable (keys_loop (iterate this)).

Definition findFirstKey (this : EntryFlow jsval V) : Item.Item :=
  match iterate this with
  | (key, _) :: _ => Item.of_ key
  | [] => Item.empty
  end.

(** [into(map)] *)
Fixpoint into_loop (map : JsMap.t V) (it : list (jsval * V)) : JsMap.t V :=
  match it with
  | [] => map
  | (key, value) :: rest => into_loop (JsMap.set map key value) rest
  end.

Definition into (map : JsMap.t V) (this : EntryFlow jsval V) : JsMap.t V :=
  into_loop map (iterate this).

Definition toMap (this : EntryFlow jsval V) : JsMap.t V :=
  reduce (fun acc key value _ => JsMap.set acc key value) [] this.

End KeyedByValue.

Section ValuedByValue.
Context {K : Type}.

Definition nonNullValues (this : EntryFlow K jsval) : EntryFlow K jsval :=
  filterValues (fun value _ => negb (is_nullish value)) this.

(** The generator of [distinctValues]. *)
Fixpoint distinctValues_loop (values : JsSet.t) (it : list (K * jsval))
  : list (K * jsval) :=
  match it with
  | [] => []
  | entry :: rest =>
      if negb (JsSet.has values (snd entry))
      then entry :: distinctValues_loop (JsSet.add values (snd entry)) rest
      else distinctValues_loop values rest
  end.

Definition distinctValues (this : EntryFlow K jsval) : EntryFlow K jsval :=
  of_ (Iterable (distinctValues_loop [] (iterate this))).

Fixpoint values_loop (it : list (K * jsval)) : list jsval :=
  match it with
  | [] => []
  | (_, value) :: rest => value :: values_loop rest
  end.

Definition values (this : EntryFlow K jsval) : Flow.Flow :=
  Flow.of_iterable (values_loop (iterate this)).

Definition findFirstValue (this : EntryFlow K jsval) : Item.Item :=
  match iterate this with
  | (_, value) :: _ => Item.of_ value
  | [] => Item.empty
  end.

End ValuedByValue.

End EntryFlow.

(** [Flow.mapToEntry] *)
Fixpoint Flow_mapToEntry_loop {K V : Type} (keyMapper : jsval -> nat -> K)
    (valueMapper : jsval -> nat -> V) (index : nat) (it : list jsval)
  : list (K * V) :=
  match it with
  | [] => []
  | value :: rest =>
      (keyMapper value index, valueMapper value index)
        :: Flow_mapToEntry_loop keyMapper valueMapper (S index) rest
  end.

Definition Flow_mapToEntry {K V : Type} (keyMapper : jsval -> nat -> K)
    (valueMapper : jsval -> nat -> V) (this : Flow.Flow)
  : EntryFlow.EntryFlow K V :=
  EntryFlow.of_
    (EntryFlow.Iterable
       (Flow_mapToEntry_loop keyMapper valueMapper 0 (Flow.iterate this))).

(** [Flow.toMap] *)
Definition Flow_toMap {V : Type} (keyExtractor : jsval -> jsval)
    (valueExtractor : jsval -> V) (this : Flow.Flow) : JsMap.t V :=
  Flow.reduce
    (fun acc value _ =>
       JsMap.set acc (keyExtractor value) (valueExtractor value))
    [] this.

(** ** class PromiseFlow *)

(** A pending computation, given by the way it settles. *)
Inductive promise (A : Type) : Type :=
| Fulfilled (a : A)
| Rejected (reason : jsval).
Arguments Fulfilled {A} a.
Arguments Rejected {A} reason.

(** ** class PromiseItem *)

Module PromiseItem.

(** A PromiseItem, by the way it ends: settled, or [None] when it stays
    pending for ever. *)
Definition PromiseItem : Type := option (promise jsval).

(** What [resolve] is given: a value, or a thenable, whose outcome the
    promise then takes. *)
Inductive resolution : Type :=
| Plain (value : jsval)
| Thenable (pending : PromiseItem).

(** The executor of [new PromiseItem((resolve, reject) => ...)]: [None]
    until [resolve] or [reject] is called for the first time; the later
    calls do nothing. *)
Definition executor : Type := option PromiseItem.

Definition resolve (state : executor) (given : resolution) : executor :=
  match state with
  | Some _ => state
  | None =>
      Some (match given with
            | Plain value => Some (Fulfilled value)
            | Thenable pending => pending
            end)
  end.

Definition reject (state : executor) (error : jsval) : executor :=
  match state with
  | Some _ => state
  | None => Some (Some (Rejected error))
  end.

(** The promise that the executor leaves. *)
Definition constructed (state : executor) : PromiseItem :=
  match state with
  | Some outcome => outcome
  | None => None
  end.

(** [this.then(onFulfilled, onRejected)], the callbacks working on the
    executor of the new promise: none of them runs while [this] is
    pending. *)
Definition then_ (this : PromiseItem) (onFulfilled : jsval -> executor)
    (onRejected : jsval -> executor) : PromiseItem :=
  match this with
  | None => None
  | Some (Fulfilled value) => constructed (onFulfilled value)
  | Some (Rejected error) => constructed (onRejected error)
  end.

Definition of_ (value : resolution) : PromiseItem :=
  constructed (resolve None value).

Definition empty : PromiseItem :=
  constructed (resolve None (Plain VUndefined)).

Definition map (mapper : jsval -> completion resolution)
    (this : PromiseItem) : PromiseItem :=
  then_ this
    (fun value =>
       if is_nullish value then resolve None (Plain VUndefined)
       else
         match mapper value with
         | Return mapped => resolve None mapped
         | Throw error => reject None error
         end)
    (reject None).

(** [this.catch(handler)]: the handler, the only place where the new
    promise is settled, runs when [this] is rejected. *)
Definition mapError (mapper : jsval -> completion resolution)
    (this : PromiseItem) : PromiseItem :=
  then_ this
    (fun _ => None)
    (fun error =>
       match mapper error with
       | Return mapped => resolve None mapped
       | Throw error' => reject None error'
       end).

Definition filter (predicate : jsval -> completion bool)
    (this : PromiseItem) : PromiseItem :=
  then_ this
    (fun value =>
       if is_nullish value then resolve None (Plain VUndefined)
       else
         match predicate value with
         | Return true => resolve None (Plain value)
         | Return false => resolve None (Plain VUndefined)
         | Throw error => reject None error
         end)
    (reject None).

(** In [filterBy] and [removeBy] the test of the value is not followed by
    [else]: the extractor runs on a nullish value too, after [resolve]. *)
Definition filterBy (extractor : jsval -> completion jsval)
    (predicate : jsval -> completion bool) (this : PromiseItem)
  : PromiseItem :=
  then_ this
    (fun value =>
       let state :=
         if is_nullish value then resolve None (Plain VUndefined) else None in
       match extractor value with
       | Throw error => reject state error
       | Return mapped =>
           if is_nullish mapped then resolve state (Plain VUndefined)
           else
             match predicate mapped with
             | Return true => resolve state (Plain value)
             | Return false => resolve state (Plain VUndefined)
             | Throw error => reject state error
             end
       end)
    (reject None).

Definition remove (predicate : jsval -> completion bool)
    (this : PromiseItem) : PromiseItem :=
  then_ this
    (fun value =>
       if is_nullish value then resolve None (Plain VUndefined)
       else
         match predicate value with
         | Return true => resolve None (Plain VUndefined)
         | Return false => resolve None (Plain value)
         | Throw error => reject None error
         end)
    (reject None).

Definition removeBy (extractor : jsval -> completion jsval)
    (predicate : jsval -> completion bool) (this : PromiseItem)
  : PromiseItem :=
  then_ this
    (fun value =>
       let state :=
         if is_nullish value then resolve None (Plain VUndefined) else None in
       match extractor value with
       | Throw error => reject state error
       | Return mapped =>
           if is_nullish mapped then resolve state (Plain VUndefined)
           else
             match predicate mapped with
             | Return true => resolve state (Plain VUndefined)
             | Return false => resolve state (Plain value)
             | Throw error => reject state error
             end
       end)
    (reject None).

Definition ifPresent (consumer : jsval -> completion unit)
    (this : PromiseItem) : PromiseItem :=
  then_ this
    (fun value =>
       match (if negb (is_nullish value) then consumer value else Return tt)
       with
       | Return _ => resolve None (Plain value)
       | Throw error => reject None error
       end)
    (reject None).

Definition ifEmpty (emptyAction : unit -> completion unit)
    (this : PromiseItem) : PromiseItem :=
  then_ this
    (fun value =>
       match (if is_nullish value then emptyAction tt else Return tt) with
       | Return _ => resolve None (Plain value)
       | Throw error => reject None error
       end)
    (reject None).

Definition ifThrown (consumer : jsval -> completion unit)
    (this : PromiseItem) : PromiseItem :=
  then_ this
    (fun value => resolve None (Plain value))
    (fun error =>
       match (if negb (is_nullish error) then consumer error else Return tt)
       with
       | Return _ => reject None error
       | Throw _ => reject None error
       end).

Definition isPresent (this : PromiseItem) : PromiseItem :=
  then_ this
    (fun value => resolve None (Plain (VBool (negb (is_nullish value)))))
    (reject None).

Definition isEmpty (this : PromiseItem) : PromiseItem :=
  then_ this
    (fun value => resolve None (Plain (VBool (is_nullish value))))
    (reject None).

(** [or] has no [try]: when the supplier throws, nothing settles the new
    promise. *)
Definition or (supplier : unit -> completion PromiseItem)
    (this : PromiseItem) : PromiseItem :=
  then_ this
    (fun value =>
       if negb (is_nullish value) then resolve None (Plain value)
       else
         match supplier tt with
         | Return other => resolve None (Thenable other)
         | Throw _ => None
         end)
    (reject None).

Definition orElse (other : resolution) (this : PromiseItem) : PromiseItem :=
  then_ this
    (fun value =>
       if negb (is_nullish value) then resolve None (Plain value)
       else resolve None other)
    (reject None).

Definition orElseGet (supplier : unit -> completion resolution)
    (this : PromiseItem) : PromiseItem :=
  then_ this
    (fun value =>
       if negb (is_nullish value) then resolve None (Plain value)
       else
         match supplier tt with
         | Return other => resolve None other
         | Throw error => reject None error
         end)
    (reject None).

(** The argument of [orElseThrow]: a function, which is called for the
    error, or the error itself. *)
Inductive supplierOrError : Type :=
| AnError (error : jsval)
| ASupplier (supplier : unit -> completion jsval).

Definition orElseThrow (arg : supplierOrError) (this : PromiseItem)
  : PromiseItem :=
  then_ this
    (fun value =>
       if negb (is_nullish value) then resolve None (Plain value)
       else
         match arg with
         | AnError error => reject None error
         | ASupplier supplier =>
             match supplier tt with
             | Return error => reject None error
             | Throw error => reject None error
             end
         end)
    (reject None).

End PromiseItem.

Module PromiseFlow.

(** An asynchronous iterator is the list of the outcomes of its pulls. *)
Record PromiseFlow : Type :=
  new { iterators : list (list (promise jsval)) }.

(** The arguments of [of], [append] and [prepend], by the branch that
    they select: one asynchronous iterator; one value with a synchronous
    iterator of promises (a [Set], an array, an iterator); anything else,
    the promises given one by one. *)
Inductive arguments : Type :=
| AsyncIterator (it : list (promise jsval))
| Iterable (promises : list (promise jsval))
| Values (promises : list (promise jsval)).

(** [[valueOrValues, ...otherValues]] on the arguments given one by one:
    with no argument at all [valueOrValues] is [undefined]. *)
Definition values_array (promises : list (promise jsval))
  : list (promise jsval) :=
  match promises with
  | [] => [Fulfilled VUndefined]
  | _ :: _ => promises
  end.

(** [async function* (iterable) { yield* iterable }]: each promise of the
    iterable is awaited when it is pulled. *)
Definition async_of_iterable (iterable : list (promise jsval))
  : list (promise jsval) := iterable.

Definition of_ (args : arguments) : PromiseFlow :=
  match args with
  | AsyncIterator it => new [it]
  | Iterable promises => new [async_of_iterable promises]
  | Values promises => new [async_of_iterable (values_array promises)]
  end.

Definition empty : PromiseFlow := new [].

(** [[Symbol.asyncIterator]()] *)
Definition asyncIterate (this : PromiseFlow) : list (promise jsval) :=
  concat (iterators this).

Definition append (args : arguments) (this : PromiseFlow) : PromiseFlow :=
  match args with
  | AsyncIterator it => new (it :: iterators this)
  | Iterable promises =>
      new (async_of_iterable promises :: iterators this)
  | Values promises =>
      new (async_of_iterable (values_array promises) :: iterators this)
  end.

Definition prepend (args : arguments) (this : PromiseFlow) : PromiseFlow :=
  match args with
  | AsyncIterator it => new (iterators this ++ [it])
  | Iterable promises =>
      new (iterators this ++ [async_of_iterable promises])
  | Values promises =>
      new (iterators this ++ [async_of_iterable (values_array promises)])
  end.

(** [for await (const value of this) array.push(value)]: a rejected pull
    rejects the result. *)
Fixpoint toArray_loop (array : list jsval) (it : list (promise jsval))
  : promise (list jsval) :=
  match it with
  | [] => Fulfilled array
  | Fulfilled value :: rest => toArray_loop (array ++ [value]) rest
  | Rejected reason :: _ => Rejected reason
  end.

Definition toArray (this : PromiseFlow) : promise (list jsval) :=
  toArray_loop [] (asyncIterate this).

(** The asynchronous generators; a rejected pull ends the generator, which
    rejects in its turn. *)
Fixpoint map_loop (mapper : jsval -> nat -> jsval) (index : nat)
    (it : list (promise jsval)) : list (promise jsval) :=
  match it with
  | [] => []
  | Fulfilled value :: rest =>
      Fulfilled (mapper value index) :: map_loop mapper (S index) rest
  | Rejected reason :: _ => [Rejected reason]
  end.

Definition map (mapper : jsval -> nat -> jsval) (this : PromiseFlow)
  : PromiseFlow :=
  of_ (AsyncIterator (map_loop mapper 0 (asyncIterate this))).

Fixpoint filter_loop (predicate : jsval -> nat -> bool) (index : nat)
    (it : list (promise jsval)) : list (promise jsval) :=
  match it with
  | [] => []
  | Fulfilled value :: rest =>
      if predicate value index
      then Fulfilled value :: filter_loop predicate (S index) rest
      else filter_loop predicate (S index) rest
  | Rejected reason :: _ => [Rejected reason]
  end.

Definition filter (predicate : jsval -> nat -> bool) (this : PromiseFlow)
  : PromiseFlow :=
  of_ (AsyncIterator (filter_loop predicate 0 (asyncIterate this))).

(** The materializing generators push every value on [values] before they
    yield. *)
Fixpoint values_loop (values : list jsval) (it : list (promise jsval))
  : promise (list jsval) :=
  match it with
  | [] => Fulfilled values
  | Fulfilled value :: rest => values_loop (values ++ [value]) rest
  | Rejected reason :: _ => Rejected reason
  end.

Definition yield_all (values : promise (list jsval))
    (f : list jsval -> list jsval) : list (promise jsval) :=
  match values with
  | Fulfilled values => List.map Fulfilled (f values)
  | Rejected reason => [Rejected reason]
  end.

Definition sort (comparator : option (jsval -> jsval -> Z))
    (this : PromiseFlow) : PromiseFlow :=
  of_ (AsyncIterator
         (yield_all (values_loop [] (asyncIterate this))
            (array_sort comparator))).

Definition reverse (this : PromiseFlow) : PromiseFlow :=
  of_ (AsyncIterator
         (yield_all (values_loop [] (asyncIterate this)) (@rev jsval))).

Definition findFirst (this : PromiseFlow) : promise Item.Item :=
  match asyncIterate this with
  | [] => Fulfilled Item.empty
  | Fulfilled value :: _ => Fulfilled (Item.of_ value)
  | Rejected reason :: _ => Rejected reason
  end.

Fixpoint some_loop (predicate : jsval -> nat -> bool) (index : nat)
    (it : list (promise jsval)) : promise bool :=
  match it with
  | [] => Fulfilled false
  | Fulfilled value :: rest =>
      if predicate value index then Fulfilled true
      else some_loop predicate (S index) rest
  | Rejected reason :: _ => Rejected reason
  end.

Definition some (predicate : jsval -> nat -> bool) (this : PromiseFlow)
  : promise bool :=
  some_loop predicate 0 (asyncIterate this).

Fixpoint every_loop (predicate : jsval -> nat -> bool) (index : nat)
    (it : list (promise jsval)) : promise bool :=
  match it with
  | [] => Fulfilled true
  | Fulfilled value :: rest =>
      if negb (predicate value index) then Fulfilled false
      else every_loop predicate (S index) rest
  | Rejected reason :: _ => Rejected reason
  end.

Definition every (predicate : jsval -> nat -> bool) (this : PromiseFlow)
  : promise bool :=
  every_loop predicate 0 (asyncIterate this).

Fixpoint count_loop (count : nat) (it : list (promise jsval)) : promise nat :=
  match it with
  | [] => Fulfilled count
  | Fulfilled _ :: rest => count_loop (S count) rest
  | Rejected reason :: _ => Rejected reason
  end.

Definition count (this : PromiseFlow) : promise nat :=
  count_loop 0 (asyncIterate this).

End PromiseFlow.

(** * Specification vocabulary

    The notions in which the properties below are stated. *)

(** ** Short-circuiting loops *)

(** The calls of a predicate on the elements [consumed], numbered from
    [index]. *)
Definition calls_on (index : nat) (consumed : list jsval)
  : list (jsval * nat) :=
  combine consumed (seq index (length consumed)).

Definition answers (predicate : jsval -> nat -> bool) (answer : bool)
    (calls : list (jsval * nat)) : Prop :=
  Forall (fun call => predicate (fst call) (snd call) = answer) calls.

(** What a loop that stops at the first element on which the predicate
    answers [stop] has done when it returns: it has consumed a prefix of
    the iterator and called the predicate on that prefix and on nothing
    else; either the last element consumed is the first one with the
    answer [stop], or the iterator is exhausted and no element has it. *)
Definition stops_at_first (predicate : jsval -> nat -> bool) (stop : bool)
    (index : nat) (it : list jsval) (stopped : bool)
    (calls : list (jsval * nat)) (remaining : list jsval) : Prop :=
  exists consumed,
    it = consumed ++ remaining
    /\ calls = calls_on index consumed
    /\ if stopped
       then exists before value,
           consumed = before ++ [value]
           /\ answers predicate (negb stop) (calls_on index before)
           /\ predicate value (index + length before)%nat = stop
       else remaining = [] /\ answers predicate (negb stop) calls.

(** ** Sorting *)

(** A comparator that orders: the sign of [compare x y] tells whether [x]
    goes before, with or after [y], coherently over all values.  The host
    leaves the result of the sort open for any other comparator. *)
Record consistent (compare : jsval -> jsval -> Z) : Prop := {
  consistent_antisym : forall x y, compare x y < 0 <-> 0 < compare y x;
  consistent_trans :
    forall x y z, compare x y <= 0 -> compare y z <= 0 -> compare x z <= 0
}.

(** The elements that the comparison puts with [x]. *)
Definition ties (compare : jsval -> jsval -> Z) (x : jsval) (y : jsval)
  : bool :=
  compare x y =? 0.

Definition ascending (compare : jsval -> jsval -> Z) (l : list jsval)
  : Prop :=
  StronglySorted (fun x y => compare x y <= 0) l.

(** Ascending as numbers: every number is at most the number after it. *)
Fixpoint numerically_ascending (l : list jsval) : bool :=
  match l with
  | VNum a :: ((VNum b :: _) as rest) => (a <=? b) && numerically_ascending rest
  | _ => true
  end.

(** [v === undefined] *)
Definition is_undefined (v : jsval) : bool :=
  match v with
  | VUndefined => true
  | _ => false
  end.

(** The comparison of two values that are not [undefined]. *)
Definition defined_compare (comparator : option (jsval -> jsval -> Z))
    (x y : jsval) : Z :=
  match comparator with
  | Some comparefn => comparefn x y
  | None => string_order (to_string x) (to_string y)
  end.

(** [output] is [input] sorted by [compare], stably: the same elements, in
    ascending order, those that tie in the order they had in [input]. *)
Definition sorted_stably (compare : jsval -> jsval -> Z)
    (input output : list jsval) : Prop :=
  Permutation input output
  /\ ascending compare output
  /\ forall z, filter (ties compare z) output = filter (ties compare z) input.

(** The numbers by their value, anything else as 0. *)
Definition numeric_comparator (x y : jsval) : Z :=
  let number v := match v with VNum n => n | _ => 0 end in
  number x - number y.

(** ** Runs and groups of entries *)

(** The maximal runs of consecutive entries with the same key.  The keys of
    a run are [===] to one another; the run is given under its last key. *)
Fixpoint runs {V : Type} (entries : list (jsval * V))
  : list (jsval * list V) :=
  match entries with
  | [] => []
  | (key, value) :: rest =>
      match runs rest with
      | (key', values) :: groups =>
          if strict_eq key key' then (key', value :: values) :: groups
          else (key, [value]) :: (key', values) :: groups
      | [] => [(key, [value])]
      end
  end.

(** The values of the entries with the given key, in order. *)
Definition values_of {V : Type} (key : jsval) (entries : list (jsval * V))
  : list V :=
  map snd (filter (fun entry => same_value_zero (fst entry) key) entries).

(** The keys in the order in which they are first seen, the keys of [seen]
    left out. *)
Fixpoint first_seen (seen keys : list jsval) : list jsval :=
  match keys with
  | [] => []
  | key :: rest =>
      if existsb (fun k => same_value_zero k key) seen
      then first_seen seen rest
      else key :: first_seen (seen ++ [key]) rest
  end.

(** One group per distinct key, in first-seen order, with all the values
    of the key. *)
Definition groups {V : Type} (entries : list (jsval * V))
  : list (jsval * list V) :=
  map (fun key => (key, values_of key entries))
    (first_seen [] (map fst entries)).

(** The entries that a list of groups stands for. *)
Definition expand {V : Type} (groups : list (jsval * list V))
  : list (jsval * V) :=
  flat_map (fun group => map (pair (fst group)) (snd group)) groups.

(** Two groups in a row have different keys. *)
Fixpoint adjacent_differ {V : Type} (groups : list (jsval * list V)) : Prop :=
  match groups with
  | group :: ((next :: _) as rest) =>
      strict_eq (fst group) (fst next) = false /\ adjacent_differ rest
  | _ => True
  end.

(** No two keys of the list are the same for SameValueZero. *)
Fixpoint distinct (keys : list jsval) : Prop :=
  match keys with
  | [] => True
  | key :: rest =>
      existsb (fun k => same_value_zero k key) rest = false /\ distinct rest
  end.

(** What a group of the map becomes once [entries] are added. *)
Definition extended {V : Type} (entries : list (jsval * V))
    (group : jsval * list V)
  : jsval * list V :=
  (fst group, snd group ++ values_of (fst group) entries).

(** ** Maps, first and last values, and asynchronous counterparts *)

(** The map after the entries have been set one by one. *)
Definition set_all {V : Type} (map : JsMap.t V) (entries : list (jsval * V))
  : JsMap.t V :=
  fold_left (fun m entry => JsMap.set m (fst entry) (snd entry)) entries map.

(** The value of the first, respectively last, entry with the given
    key. *)
Definition first_value {V : Type} (key : jsval) (entries : list (jsval * V))
  : option V :=
  option_map snd (find (fun entry => same_value_zero (fst entry) key) entries).

Definition last_value {V : Type} (key : jsval) (entries : list (jsval * V))
  : option V :=
  first_value key (rev entries).

(** The asynchronous flow whose sources produce the elements of the
    sources of [this], every pull fulfilled. *)
Definition fulfilled_flow (this : Flow.Flow) : PromiseFlow.PromiseFlow :=
  PromiseFlow.new (map (map Fulfilled) (Flow.iterators this)).

(** The asynchronous Optional ends fulfilled, empty exactly when the
    Optional is empty and with its value when it is present. *)
Definition settles_like (pending : PromiseItem.PromiseItem)
    (item : Item.Item) : Prop :=
  exists value,
    pending = Some (Fulfilled value)
    /\ is_nullish value = Item.isEmpty item
    /\ (if Item.isPresent item then value = Item.value item else True).

(** * Properties *)

(** ** Item *)

Section ItemProperties.

Lemma isPresent_negb_isEmpty (this : Item.Item) :
  Item.isPresent this = negb (Item.isEmpty this).
Proof. reflexivity. Qed.

Lemma is_nullish_iff (v : jsval) :
  is_nullish v = true <-> v = VNull \/ v = VUndefined.
Proof.
  split.
  - destruct v; simpl; intro H; try discriminate H; auto.
  - intros [-> | ->]; reflexivity.
Qed.

(** C3, as the spec states it, fails: [get()] on the empty Optional does
    not fail, it returns [undefined]; no call of [get()] throws. *)
Lemma Item_get_empty_returns_undefined :
  Item.isEmpty Item.empty = true
  /\ Item.get Item.empty = Return VUndefined
  /\ ~ (exists error, Item.get Item.empty = Throw error).
Proof.
  repeat split.
  intros [error H]. discriminate H.
Qed.

(** C3, amended: [get()] never fails; it returns the stored value, which
    is nullish exactly when the Optional is empty, so on a present
    Optional it returns the contained, non-nullish value. *)
Theorem Item_get_returns_stored_value :
  forall this : Item.Item,
    Item.get this = Return (Item.value this)
    /\ is_nullish (Item.value this) = Item.isEmpty this
    /\ Item.isPresent this = negb (is_nullish (Item.value this))
    /\ forall error, Item.get this <> Throw error.
Proof.
  intros [v]. unfold Item.get, Item.isPresent, Item.isEmpty. simpl.
  repeat split. intros error H. discriminate H.
Qed.

(** C9: [Optional.of(null)] and [Optional.of(undefined)] are empty and
    not present, as [Optional.empty()] is; an Optional built by [of] is
    empty exactly when the value is nullish, so no nullish value is ever
    present. *)
Theorem Item_of_nullish_is_empty :
  (Item.isEmpty (Item.of_ VNull) = true
   /\ Item.isPresent (Item.of_ VNull) = false)
  /\ (Item.isEmpty (Item.of_ VUndefined) = true
      /\ Item.isPresent (Item.of_ VUndefined) = false)
  /\ (Item.isEmpty Item.empty = true /\ Item.isPresent Item.empty = false)
  /\ (forall v, Item.isEmpty (Item.of_ v) = true
                <-> v = VNull \/ v = VUndefined)
  /\ (forall v, Item.isPresent (Item.of_ v) = true
                <-> v <> VNull /\ v <> VUndefined)
  /\ (forall this, Item.isPresent this = negb (Item.isEmpty this)).
Proof.
  repeat match goal with |- _ /\ _ => split end; try reflexivity.
  - intro v. unfold Item.isEmpty, Item.of_. simpl. apply is_nullish_iff.
  - intro v. unfold Item.isPresent, Item.isEmpty, Item.of_. simpl.
    destruct v; simpl; split; intro H;
      try discriminate H; try reflexivity;
      try (split; intro E; discriminate E);
      destruct H as [H1 H2]; congruence.
Qed.

End ItemProperties.

(** ** Flow: composition of sources *)

Section FlowSources.

Lemma toArray_append (arguments : list jsval) (this : Flow.Flow) :
  Flow.toArray (Flow.append arguments this)
  = Flow.toArray this ++ Flow.source arguments.
Proof.
  unfold Flow.toArray, Flow.iterate, Flow.append. simpl.
  rewrite concat_app. simpl. now rewrite app_nil_r.
Qed.

Lemma toArray_prepend (arguments : list jsval) (this : Flow.Flow) :
  Flow.toArray (Flow.prepend arguments this)
  = Flow.source arguments ++ Flow.toArray this.
Proof. reflexivity. Qed.

(** C7: [of(1,2).append(3,4).prepend(0)] drains to [0,1,2,3,4], and so
    does [of(1,2).prepend(0).append(3,4)]; [append] adds its source after
    the existing ones and [prepend] before them, leaving them as they
    are, so the elements of the new source come last, respectively
    first. *)
Theorem Flow_append_prepend_source_order :
  Flow.toArray
    (Flow.prepend [VNum 0]
       (Flow.append [VNum 3; VNum 4] (Flow.of_ [VNum 1; VNum 2])))
  = [VNum 0; VNum 1; VNum 2; VNum 3; VNum 4]
  /\ Flow.toArray
       (Flow.append [VNum 3; VNum 4]
          (Flow.prepend [VNum 0] (Flow.of_ [VNum 1; VNum 2])))
     = [VNum 0; VNum 1; VNum 2; VNum 3; VNum 4]
  /\ (forall arguments this,
        Flow.iterators (Flow.append arguments this)
        = Flow.iterators this ++ [Flow.source arguments]
        /\ Flow.toArray (Flow.append arguments this)
           = Flow.toArray this ++ Flow.source arguments)
  /\ (forall arguments this,
        Flow.iterators (Flow.prepend arguments this)
        = [Flow.source arguments] ++ Flow.iterators this
        /\ Flow.toArray (Flow.prepend arguments this)
           = Flow.source arguments ++ Flow.toArray this).
Proof.
  split; [reflexivity|]. split; [reflexivity|]. split.
  - intros arguments this. split; [reflexivity|]. apply toArray_append.
  - intros arguments this. split; [reflexivity|]. apply toArray_prepend.
Qed.

End FlowSources.

(** ** Item and Flow: the bridge *)

Section Bridge.

Lemma count_loop_length (it : list jsval) (count : nat) :
  Flow.count_loop count it = (count + length it)%nat.
Proof.
  revert count. induction it as [|x it IH]; intro count; simpl.
  - lia.
  - rewrite IH. lia.
Qed.

(** The bridge is a round trip on every value that is neither nullish nor
    iterable, and the empty Optional bridges to a flow of no element. *)
Lemma Item_flow_round_trip (v : jsval) :
  is_nullish v = false ->
  iterator v = None ->
  Item.get (Flow.findFirst (Item_flow (Item.of_ v))) = Return v.
Proof.
  intros Hn Hi.
  unfold Item_flow, Item.isEmpty, Item.of_. simpl. rewrite Hn.
  unfold Flow.findFirst, Flow.findFirst_rest, Flow.iterate, Flow.of_,
    Flow.source.
  simpl. rewrite Hi. reflexivity.
Qed.

Lemma Item_flow_empty_count :
  Flow.count (Item_flow Item.empty) = 0%nat.
Proof. reflexivity. Qed.

(** C6 fails on the code for a value that has an iterator:
    [Optional.of("ab").flow()] is the flow of the characters "a" and "b",
    so [findFirst().get()] is "a"; [Optional.of([1,2]).flow()] is the flow
    of 1 and 2, so [findFirst().get()] is 1; and
    [Optional.of("").flow()] has no element at all. *)
Theorem Item_flow_spreads_iterable_value :
  (is_nullish (VStr "ab") = false
   /\ Flow.toArray (Item_flow (Item.of_ (VStr "ab"))) = [VStr "a"; VStr "b"]
   /\ Item.get (Flow.findFirst (Item_flow (Item.of_ (VStr "ab"))))
      = Return (VStr "a"))
  /\ (is_nullish (VArr 0 [VNum 1; VNum 2]) = false
      /\ Item.get
           (Flow.findFirst (Item_flow (Item.of_ (VArr 0 [VNum 1; VNum 2]))))
         = Return (VNum 1))
  /\ (is_nullish (VStr "") = false
      /\ Flow.count (Item_flow (Item.of_ (VStr ""))) = 0%nat
      /\ Item.get (Flow.findFirst (Item_flow (Item.of_ (VStr ""))))
         = Return VUndefined).
Proof. repeat split. Qed.

End Bridge.

(** ** Flow: short-circuiting terminal operations *)

Section ShortCircuit.

Lemma stops_at_first_here predicate stop index value rest :
  predicate value index = stop ->
  stops_at_first predicate stop index (value :: rest)
    true [(value, index)] rest.
Proof.
  intro Hp. exists [value]. repeat split.
  exists [], value. repeat split.
  - constructor.
  - simpl. now rewrite Nat.add_0_r.
Qed.

Lemma stops_at_first_later predicate stop index value rest
    stopped calls remaining :
  predicate value index = negb stop ->
  stops_at_first predicate stop (S index) rest stopped calls remaining ->
  stops_at_first predicate stop index (value :: rest)
    stopped ((value, index) :: calls) remaining.
Proof.
  intros Hp (consumed & Hit & Hcalls & Hend).
  exists (value :: consumed). split; [|split].
  - simpl. now rewrite Hit.
  - unfold calls_on. simpl. now rewrite Hcalls.
  - destruct stopped.
    + destruct Hend as (before & last & Hc & Hb & Hl).
      exists (value :: before), last. split; [|split].
      * simpl. now rewrite Hc.
      * unfold answers, calls_on. simpl. constructor; [exact Hp | exact Hb].
      * simpl. now rewrite <- plus_n_Sm.
    + destruct Hend as [Hr Ha]. split; [exact Hr|].
      constructor; [exact Hp | exact Ha].
Qed.

Lemma stops_at_first_exhausted predicate stop index :
  stops_at_first predicate stop index [] false [] [].
Proof.
  exists []. repeat split. constructor.
Qed.

Lemma some_loop_stops predicate (it : list jsval) :
  forall index stopped calls remaining,
    Flow.some_loop predicate index it = (stopped, calls, remaining) ->
    stopped = fst (fst (Flow.some_loop predicate index it))
    /\ stops_at_first predicate true index it stopped calls remaining.
Proof.
  induction it as [|value rest IH]; intros index stopped calls remaining;
    simpl.
  - intro H. injection H as <- <- <-. split; [reflexivity|].
    apply stops_at_first_exhausted.
  - destruct (predicate value index) eqn:Hp.
    + intro H. injection H as <- <- <-. split; [reflexivity|].
      now apply stops_at_first_here.
    + destruct (Flow.some_loop predicate (S index) rest)
        as [[stopped' calls'] remaining'] eqn:Hloop.
      intro H. injection H as <- <- <-. split; [reflexivity|].
      apply stops_at_first_later; [exact Hp|].
      now apply (IH (S index)).
Qed.

Lemma every_loop_stops predicate (it : list jsval) :
  forall index result calls remaining,
    Flow.every_loop predicate index it = (result, calls, remaining) ->
    stops_at_first predicate false index it (negb result) calls remaining.
Proof.
  induction it as [|value rest IH]; intros index result calls remaining;
    simpl.
  - intro H. injection H as <- <- <-. apply stops_at_first_exhausted.
  - destruct (predicate value index) eqn:Hp; simpl.
    + destruct (Flow.every_loop predicate (S index) rest)
        as [[result' calls'] remaining'] eqn:Hloop.
      intro H. injection H as <- <- <-.
      apply stops_at_first_later; [exact Hp|].
      now apply (IH (S index)).
    + intro H. injection H as <- <- <-.
      now apply stops_at_first_here.
Qed.

(** C8: [some(p)] returns [true] exactly when it has stopped at the first
    element that satisfies [p], and then [p] has been called on the
    elements up to and including that one and on no other, the rest of
    the iterator being left; [of(1,2,3,4).some(x => x > 1)] is [true]
    with [p] called on 1 and 2 only.  [every(p)] stops in the same way at
    the first element that falsifies [p].  [findFirst()] consumes at most
    one element. *)
Theorem Flow_some_every_findFirst_short_circuit :
  (forall predicate this,
      let '(result, calls, remaining) := Flow.some_run predicate this in
      Flow.some predicate this = result
      /\ stops_at_first predicate true 0 (Flow.iterate this)
           result calls remaining)
  /\ Flow.some_run
       (fun value _ => match value with VNum n => n >? 1 | _ => false end)
       (Flow.of_ [VNum 1; VNum 2; VNum 3; VNum 4])
     = (true, [(VNum 1, 0%nat); (VNum 2, 1%nat)], [VNum 3; VNum 4])
  /\ (forall predicate this,
        let '(result, calls, remaining) := Flow.every_run predicate this in
        Flow.every predicate this = result
        /\ stops_at_first predicate false 0 (Flow.iterate this)
             (negb result) calls remaining)
  /\ (forall this,
        let '(item, remaining) := Flow.findFirst_rest this in
        Flow.findFirst this = item
        /\ exists consumed,
            Flow.iterate this = consumed ++ remaining
            /\ (length consumed <= 1)%nat
            /\ item = match consumed with
                      | [] => Item.empty
                      | value :: _ => Item.of_ value
                      end).
Proof.
  split; [|split; [|split]].
  - intros predicate this. unfold Flow.some, Flow.some_run.
    destruct (Flow.some_loop predicate 0 (Flow.iterate this))
      as [[result calls] remaining] eqn:Hloop.
    split; [reflexivity|].
    now apply (some_loop_stops predicate _ 0%nat).
  - reflexivity.
  - intros predicate this. unfold Flow.every, Flow.every_run.
    destruct (Flow.every_loop predicate 0 (Flow.iterate this))
      as [[result calls] remaining] eqn:Hloop.
    split; [reflexivity|].
    now apply (every_loop_stops predicate _ 0%nat).
  - intro this. unfold Flow.findFirst, Flow.findFirst_rest.
    destruct (Flow.iterate this) as [|value rest]; simpl.
    + split; [reflexivity|]. exists []. repeat split. simpl. lia.
    + split; [reflexivity|]. exists [value]. repeat split. simpl. lia.
Qed.

End ShortCircuit.

(** ** EntryFlow: the index that filterKeys and filterValues pass *)

Section FilterIndex.

Context {K V : Type}.

Lemma filterValues_loop_app (predicate : V -> nat -> bool)
    (before rest : list (K * V)) :
  forall index,
    EntryFlow.filterValues_loop predicate index (before ++ rest)
    = (fst (EntryFlow.filterValues_loop predicate index before)
         ++ fst (EntryFlow.filterValues_loop predicate
                   (index
                    + length (fst (EntryFlow.filterValues_loop
                                     predicate index before)))
                   rest),
       snd (EntryFlow.filterValues_loop predicate index before)
         ++ snd (EntryFlow.filterValues_loop predicate
                   (index
                    + length (fst (EntryFlow.filterValues_loop
                                     predicate index before)))
                   rest)).
Proof.
  induction before as [|entry before IH]; intro index; simpl.
  - rewrite Nat.add_0_r. now destruct (EntryFlow.filterValues_loop _ _ _).
  - destruct (predicate (snd entry) index).
    + rewrite (IH (S index)).
      destruct (EntryFlow.filterValues_loop predicate (S index) before)
        as [yielded calls]. simpl.
      now rewrite <- plus_n_Sm.
    + rewrite (IH index).
      destruct (EntryFlow.filterValues_loop predicate index before)
        as [yielded calls]. reflexivity.
Qed.

Lemma filterKeys_loop_app (predicate : K -> nat -> bool)
    (before rest : list (K * V)) :
  forall index,
    EntryFlow.filterKeys_loop predicate index (before ++ rest)
    = (fst (EntryFlow.filterKeys_loop predicate index before)
         ++ fst (EntryFlow.filterKeys_loop predicate
                   (index + length before) rest),
       snd (EntryFlow.filterKeys_loop predicate index before)
         ++ snd (EntryFlow.filterKeys_loop predicate
                   (index + length before) rest)).
Proof.
  induction before as [|entry before IH]; intro index; simpl.
  - rewrite Nat.add_0_r. now destruct (EntryFlow.filterKeys_loop _ _ _).
  - rewrite (IH (S index)). rewrite <- plus_n_Sm. simpl.
    destruct (EntryFlow.filterKeys_loop predicate (S index) before)
      as [yielded calls].
    destruct (predicate (fst entry) index); reflexivity.
Qed.

(** Both loops call the predicate once per entry. *)
Lemma filterValues_calls_length (predicate : V -> nat -> bool)
    (it : list (K * V)) :
  forall index,
    length (snd (EntryFlow.filterValues_loop predicate index it)) = length it.
Proof.
  induction it as [|entry it IH]; intro index; simpl; [reflexivity|].
  destruct (predicate (snd entry) index).
  - specialize (IH (S index)).
    destruct (EntryFlow.filterValues_loop predicate (S index) it).
    simpl in *. now rewrite IH.
  - specialize (IH index).
    destruct (EntryFlow.filterValues_loop predicate index it).
    simpl in *. now rewrite IH.
Qed.

Lemma filterKeys_calls_length (predicate : K -> nat -> bool)
    (it : list (K * V)) :
  forall index,
    length (snd (EntryFlow.filterKeys_loop predicate index it)) = length it.
Proof.
  induction it as [|entry it IH]; intro index; simpl; [reflexivity|].
  specialize (IH (S index)).
  destruct (EntryFlow.filterKeys_loop predicate (S index) it).
  destruct (predicate (fst entry) index); simpl in *; now rewrite IH.
Qed.

Lemma filterValues_ignoring_index (accept : V -> bool) (it : list (K * V)) :
  forall index,
    fst (EntryFlow.filterValues_loop (fun value _ => accept value) index it)
    = filter (fun entry => accept (snd entry)) it.
Proof.
  induction it as [|entry it IH]; intro index; simpl; [reflexivity|].
  destruct (accept (snd entry)).
  - specialize (IH (S index)).
    destruct (EntryFlow.filterValues_loop _ (S index) it).
    simpl in *. now rewrite IH.
  - specialize (IH index).
    destruct (EntryFlow.filterValues_loop _ index it). exact IH.
Qed.

Lemma filterKeys_ignoring_index (accept : K -> bool) (it : list (K * V)) :
  forall index,
    fst (EntryFlow.filterKeys_loop (fun key _ => accept key) index it)
    = filter (fun entry => accept (fst entry)) it.
Proof.
  induction it as [|entry it IH]; intro index; simpl; [reflexivity|].
  specialize (IH (S index)).
  destruct (EntryFlow.filterKeys_loop _ (S index) it).
  destruct (accept (fst entry)); simpl in *; now rewrite IH.
Qed.

End FilterIndex.

(** C10: when [filterValues(p)] reaches an entry, the index it passes to
    [p] is the number of entries it has yielded before, while
    [filterKeys(p)] passes the position of the entry in the source; the two
    differ as soon as an entry is dropped.  When [p] ignores the index,
    both yield exactly the entries whose value, respectively key,
    satisfies [p], in source order. *)
Theorem EntryFlow_filter_index_argument :
  forall K V : Type,
    (forall (predicate : V -> nat -> bool) (before : list (K * V)) entry after,
        nth_error
          (snd (EntryFlow.filterValues_loop predicate 0
                  (before ++ entry :: after)))
          (length before)
        = Some (snd entry,
                length (fst (EntryFlow.filterValues_loop predicate 0 before))))
    /\ (forall (predicate : K -> nat -> bool) (before : list (K * V))
               entry after,
          nth_error
            (snd (EntryFlow.filterKeys_loop predicate 0
                    (before ++ entry :: after)))
            (length before)
          = Some (fst entry, length before))
    /\ (forall (accept : V -> bool) (this : EntryFlow.EntryFlow K V),
          EntryFlow.toArray
            (EntryFlow.filterValues (fun value _ => accept value) this)
          = filter (fun entry => accept (snd entry)) (EntryFlow.toArray this))
    /\ (forall (accept : K -> bool) (this : EntryFlow.EntryFlow K V),
          EntryFlow.toArray
            (EntryFlow.filterKeys (fun key _ => accept key) this)
          = filter (fun entry => accept (fst entry)) (EntryFlow.toArray this))
    /\ snd (EntryFlow.filterValues_loop (fun value _ => value >? 1) 0
              [("a", 1); ("b", 2); ("c", 3)])
       = [(1, 0%nat); (2, 0%nat); (3, 1%nat)]
    /\ snd (EntryFlow.filterKeys_loop (fun key _ => key >? 1) 0
              [(1, "a"); (2, "b"); (3, "c")])
       = [(1, 0%nat); (2, 1%nat); (3, 2%nat)].
Proof.
  intros K V. repeat match goal with |- _ /\ _ => split end;
    try reflexivity.
  - intros predicate before entry after.
    rewrite filterValues_loop_app. cbn [snd].
    rewrite nth_error_app2; rewrite filterValues_calls_length; [|lia].
    rewrite Nat.sub_diag. simpl.
    destruct (predicate (snd entry) _);
      now destruct (EntryFlow.filterValues_loop _ _ after).
  - intros predicate before entry after.
    rewrite filterKeys_loop_app. cbn [snd].
    rewrite nth_error_app2; rewrite filterKeys_calls_length; [|lia].
    rewrite Nat.sub_diag. simpl.
    destruct (EntryFlow.filterKeys_loop _ _ after).
    now destruct (predicate (fst entry) _).
  - intros accept this.
    unfold EntryFlow.toArray, EntryFlow.filterValues, EntryFlow.iterate at 1.
    simpl. rewrite app_nil_r. apply filterValues_ignoring_index.
  - intros accept this.
    unfold EntryFlow.toArray, EntryFlow.filterKeys, EntryFlow.iterate at 1.
    simpl. rewrite app_nil_r. apply filterKeys_ignoring_index.
Qed.

(** ** EntryFlow and PromiseFlow: composition of sources *)

Section OtherSources.

(** Where [EntryFlow.append] and [EntryFlow.prepend] put the new source. *)
Lemma EntryFlow_append_iterators {K V : Type}
    (valueOrValues : EntryFlow.source K V)
    (this : EntryFlow.EntryFlow K V) :
  EntryFlow.iterators (EntryFlow.append valueOrValues this)
  = EntryFlow.iterators (EntryFlow.of_ valueOrValues)
      ++ EntryFlow.iterators this.
Proof. destruct valueOrValues; reflexivity. Qed.

Lemma EntryFlow_prepend_iterators {K V : Type}
    (valueOrValues : EntryFlow.source K V)
    (this : EntryFlow.EntryFlow K V) :
  EntryFlow.iterators (EntryFlow.prepend valueOrValues this)
  = match valueOrValues with
    | EntryFlow.Iterable it => it :: EntryFlow.iterators this
    | EntryFlow.PlainRecord entries => EntryFlow.iterators this ++ [entries]
    end.
Proof. destruct valueOrValues; reflexivity. Qed.

(** C2 fails on the code: [EntryFlow.append] puts the new source first, for
    an iterable as for a record, so the appended pairs come before the
    receiver's; and [EntryFlow.prepend] of a record puts it last. *)
Theorem EntryFlow_append_puts_source_first :
  EntryFlow.toArray
    (EntryFlow.append (EntryFlow.Iterable [("b", 2)])
       (EntryFlow.of_ (EntryFlow.Iterable [("a", 1)])))
  = [("b", 2); ("a", 1)]
  /\ EntryFlow.toArray
       (EntryFlow.append (EntryFlow.PlainRecord [("b", 2)])
          (EntryFlow.of_ (EntryFlow.Iterable [("a", 1)])))
     = [("b", 2); ("a", 1)]
  /\ EntryFlow.toArray
       (EntryFlow.prepend (EntryFlow.PlainRecord [("b", 2)])
          (EntryFlow.of_ (EntryFlow.Iterable [("a", 1)])))
     = [("a", 1); ("b", 2)]
  /\ EntryFlow.toArray
       (EntryFlow.prepend (EntryFlow.Iterable [("b", 2)])
          (EntryFlow.of_ (EntryFlow.Iterable [("a", 1)])))
     = [("b", 2); ("a", 1)].
Proof. repeat split. Qed.

(** Where [PromiseFlow.append] and [PromiseFlow.prepend] put the new
    source. *)
Lemma PromiseFlow_append_iterators (args : PromiseFlow.arguments)
    (this : PromiseFlow.PromiseFlow) :
  PromiseFlow.iterators (PromiseFlow.append args this)
  = PromiseFlow.iterators (PromiseFlow.of_ args)
      ++ PromiseFlow.iterators this.
Proof. destruct args; reflexivity. Qed.

Lemma PromiseFlow_prepend_iterators (args : PromiseFlow.arguments)
    (this : PromiseFlow.PromiseFlow) :
  PromiseFlow.iterators (PromiseFlow.prepend args this)
  = PromiseFlow.iterators this
      ++ PromiseFlow.iterators (PromiseFlow.of_ args).
Proof. destruct args; reflexivity. Qed.

(** C1 fails on the code: [PromiseFlow.append] puts the new source first
    and [PromiseFlow.prepend] puts it last, the reverse of [Flow.append]
    and [Flow.prepend]; on promises fulfilled with 1, 2 and 3 the
    asynchronous pipeline drains to [3,1,2] where the synchronous one
    drains to [1,2,3]. *)
Theorem PromiseFlow_append_prepend_swapped :
  PromiseFlow.toArray
    (PromiseFlow.append (PromiseFlow.Values [Fulfilled (VNum 3)])
       (PromiseFlow.of_
          (PromiseFlow.Values [Fulfilled (VNum 1); Fulfilled (VNum 2)])))
  = Fulfilled [VNum 3; VNum 1; VNum 2]
  /\ Flow.toArray (Flow.append [VNum 3] (Flow.of_ [VNum 1; VNum 2]))
     = [VNum 1; VNum 2; VNum 3]
  /\ PromiseFlow.toArray
       (PromiseFlow.prepend (PromiseFlow.Values [Fulfilled (VNum 0)])
          (PromiseFlow.of_
             (PromiseFlow.Values [Fulfilled (VNum 1); Fulfilled (VNum 2)])))
     = Fulfilled [VNum 1; VNum 2; VNum 0]
  /\ Flow.toArray (Flow.prepend [VNum 0] (Flow.of_ [VNum 1; VNum 2]))
     = [VNum 0; VNum 1; VNum 2].
Proof. repeat split. Qed.

End OtherSources.

(** ** EntryFlow: collapseKeys and grouping *)

Section StrictEq.

Lemma strict_eq_refl x : strict_eq x x = true.
Proof.
  destruct x; simpl; auto using Z.eqb_refl, Nat.eqb_refl, String.eqb_refl.
  now destruct b.
Qed.

Lemma strict_eq_sym x y : strict_eq x y = strict_eq y x.
Proof.
  destruct x, y; simpl; try reflexivity.
  - now destruct b, b0.
  - apply Z.eqb_sym.
  - apply String.eqb_sym.
  - apply Nat.eqb_sym.
  - apply Nat.eqb_sym.
Qed.

Lemma strict_eq_trans x y z :
  strict_eq x y = true -> strict_eq y z = true -> strict_eq x z = true.
Proof.
  destruct x, y; simpl; try discriminate; destruct z; simpl;
    try discriminate; try reflexivity.
  - destruct b, b0, b1; simpl; congruence.
  - rewrite !Z.eqb_eq. congruence.
  - rewrite !String.eqb_eq. congruence.
  - rewrite !Nat.eqb_eq. congruence.
  - rewrite !Nat.eqb_eq. congruence.
Qed.

Lemma strict_eq_false_l x y z :
  strict_eq x y = false -> strict_eq y z = true -> strict_eq x z = false.
Proof.
  intros Hxy Hyz. destruct (strict_eq x z) eqn:Hxz; [|reflexivity].
  rewrite strict_eq_sym in Hyz.
  rewrite (strict_eq_trans x z y Hxz Hyz) in Hxy. discriminate.
Qed.

End StrictEq.

Section CollapseRuns.
Context {V : Type}.

Lemma EntryFlow_toArray_of_iterable {K W : Type} (it : list (K * W)) :
  EntryFlow.toArray (EntryFlow.of_ (EntryFlow.Iterable it)) = it.
Proof.
  unfold EntryFlow.toArray, EntryFlow.iterate. simpl. apply app_nil_r.
Qed.

Lemma collapseKeys_loop_runs (it : list (jsval * V)) :
  forall collapseKey collapseValues,
    truthy collapseKey = true ->
    Forall (fun entry => truthy (fst entry) = true) it ->
    EntryFlow.collapseKeys_loop collapseKey collapseValues it
    = match runs it with
      | (key, values) :: groups =>
          if strict_eq collapseKey key
          then (key, collapseValues ++ values) :: groups
          else (collapseKey, collapseValues) :: (key, values) :: groups
      | [] => [(collapseKey, collapseValues)]
      end.
Proof.
  induction it as [|[key value] rest IH];
    intros collapseKey collapseValues Hk Hall.
  - simpl. now rewrite Hk.
  - inversion Hall as [|? ? Hkey Hrest]; subst. simpl in Hkey.
    cbn [EntryFlow.collapseKeys_loop runs]. rewrite Hk. cbn [andb].
    destruct (strict_eq collapseKey key) eqn:E; cbn [negb].
    + rewrite (IH key _ Hkey Hrest).
      destruct (runs rest) as [|[key' values] groups].
      * now rewrite E.
      * destruct (strict_eq key key') eqn:E'.
        -- rewrite (strict_eq_trans _ _ _ E E').
           now rewrite <- app_assoc.
        -- now rewrite E.
    + rewrite (IH key _ Hkey Hrest). simpl.
      destruct (runs rest) as [|[key' values] groups].
      * now rewrite E.
      * destruct (strict_eq key key') eqn:E'.
        -- now rewrite (strict_eq_false_l _ _ _ E E').
        -- now rewrite E.
Qed.

(** On truthy keys [collapseKeys] yields the maximal runs. *)
Lemma collapseKeys_truthy_runs (this : EntryFlow.EntryFlow jsval V) :
  Forall (fun entry => truthy (fst entry) = true) (EntryFlow.toArray this) ->
  EntryFlow.toArray (EntryFlow.collapseKeys this)
  = runs (EntryFlow.toArray this).
Proof.
  unfold EntryFlow.collapseKeys. rewrite EntryFlow_toArray_of_iterable.
  unfold EntryFlow.toArray.
  destruct (EntryFlow.iterate this) as [|[key value] rest]; [reflexivity|].
  intro Hall. inversion Hall as [|? ? Hkey Hrest]; subst. simpl in Hkey.
  cbn [EntryFlow.collapseKeys_loop truthy andb].
  rewrite (collapseKeys_loop_runs rest key _ Hkey Hrest). simpl.
  destruct (runs rest) as [|[key' values] groups]; [reflexivity|].
  now destruct (strict_eq key key').
Qed.

(** The runs hold the entries in order, each under a key [===] to its own;
    no run is empty and two runs in a row have different keys. *)
Lemma runs_are_runs (entries : list (jsval * V)) :
  Forall2 (fun entry entry' =>
             strict_eq (fst entry) (fst entry') = true
             /\ snd entry = snd entry')
    entries (expand (runs entries))
  /\ Forall (fun group => snd group <> []) (runs entries)
  /\ adjacent_differ (runs entries).
Proof.
  induction entries as [|[key value] rest (IH1 & IH2 & IH3)].
  - repeat split; constructor.
  - cbn [runs]. destruct (runs rest) as [|[key' values] groups].
    + inversion IH1; subst. repeat split.
      * constructor; [|constructor]. simpl.
        split; [apply strict_eq_refl|reflexivity].
      * constructor; [discriminate|constructor].
    + destruct (strict_eq key key') eqn:E.
      * repeat split.
        -- unfold expand in *. simpl in *. constructor; [|exact IH1].
           simpl. now split.
        -- inversion IH2; subst. constructor; [discriminate|assumption].
        -- destruct groups; [exact I|]. exact IH3.
      * repeat split.
        -- unfold expand in *. simpl in *. constructor; [|exact IH1].
           simpl. split; [apply strict_eq_refl|reflexivity].
        -- constructor; [discriminate|exact IH2].
        -- exact E.
        -- exact IH3.
Qed.

End CollapseRuns.

Section Grouping.
Context {V : Type}.

Lemma has_existsb (map : JsMap.t (list V)) key :
  JsMap.has map key
  = existsb (fun k => same_value_zero k key) (List.map fst map).
Proof.
  induction map as [|[k vs] map IH]; simpl; [reflexivity|].
  now rewrite IH.
Qed.

Lemma update_keys (map : JsMap.t (list V)) key f :
  List.map fst (JsMap.update map key f) = List.map fst map.
Proof.
  induction map as [|[k vs] map IH]; simpl; [reflexivity|].
  destruct (same_value_zero k key); simpl; [reflexivity|]. now rewrite IH.
Qed.

Lemma set_absent (map : JsMap.t (list V)) key values :
  JsMap.has map key = false ->
  JsMap.set map key values = map ++ [(key, values)].
Proof.
  induction map as [|[k vs] map IH]; simpl; [reflexivity|].
  destruct (same_value_zero k key); simpl; [discriminate|].
  intro H. now rewrite IH.
Qed.

Lemma update_absent (map map' : JsMap.t (list V)) key f :
  JsMap.has map key = false ->
  JsMap.update (map ++ map') key f = map ++ JsMap.update map' key f.
Proof.
  induction map as [|[k vs] map IH]; simpl; [reflexivity|].
  destruct (same_value_zero k key); simpl; [discriminate|].
  intro H. now rewrite IH.
Qed.

Lemma values_of_cons_same key key' (value : V) entries :
  same_value_zero key key' = true ->
  values_of key' ((key, value) :: entries) = value :: values_of key' entries.
Proof. intro H. unfold values_of. simpl. now rewrite H. Qed.

Lemma values_of_cons_other key key' (value : V) entries :
  same_value_zero key key' = false ->
  values_of key' ((key, value) :: entries) = values_of key' entries.
Proof. intro H. unfold values_of. simpl. now rewrite H. Qed.

Lemma existsb_false_In {A : Type} (f : A -> bool) (l : list A) x :
  existsb f l = false -> In x l -> f x = false.
Proof.
  induction l as [|y l IH]; simpl; [tauto|].
  intros H [-> | Hin].
  - now apply orb_false_iff in H.
  - apply orb_false_iff in H. now apply IH.
Qed.

(** A key of [seen] is none of the keys first seen after [seen]. *)
Lemma first_seen_not_seen (keys : list jsval) :
  forall seen key k,
    existsb (fun k' => same_value_zero k' key) seen = true ->
    In k (first_seen seen keys) ->
    same_value_zero key k = false.
Proof.
  induction keys as [|key0 keys IH]; intros seen key k Hseen; simpl;
    [tauto|].
  destruct (existsb (fun k' => same_value_zero k' key0) seen) eqn:E.
  - now apply IH.
  - intros [<- | Hin].
    + destruct (same_value_zero key key0) eqn:Hk; [|reflexivity].
      apply existsb_exists in Hseen. destruct Hseen as (k' & Hin' & Hk').
      apply (existsb_false_In _ _ _ E) in Hin'.
      unfold same_value_zero in *.
      rewrite (strict_eq_trans _ _ _ Hk' Hk) in Hin'. discriminate.
    + apply (IH (seen ++ [key0])); [|exact Hin].
      rewrite existsb_app, Hseen. reflexivity.
Qed.

Lemma map_extended_other (map : JsMap.t (list V)) key value entries :
  JsMap.has map key = false ->
  List.map (extended ((key, value) :: entries)) map
  = List.map (extended entries) map.
Proof.
  induction map as [|[k vs] map IH]; simpl; [reflexivity|].
  destruct (same_value_zero k key) eqn:E; simpl; [discriminate|].
  intro H. rewrite (IH H). unfold extended. simpl.
  rewrite values_of_cons_other; [reflexivity|].
  unfold same_value_zero in *. now rewrite strict_eq_sym.
Qed.

Lemma map_extended_update (map : JsMap.t (list V)) key value entries :
  distinct (List.map fst map) ->
  JsMap.has map key = true ->
  List.map (extended entries)
    (JsMap.update map key (fun values => values ++ [value]))
  = List.map (extended ((key, value) :: entries)) map.
Proof.
  induction map as [|[k vs] map IH]; simpl; [discriminate|].
  intros [Hk Hd].
  destruct (same_value_zero k key) eqn:E; simpl.
  - intros _. unfold extended at 1 3. simpl.
    rewrite values_of_cons_same
      by (unfold same_value_zero in *; now rewrite strict_eq_sym).
    rewrite <- app_assoc. simpl. f_equal.
    symmetry. apply map_extended_other.
    rewrite has_existsb.
    destruct (existsb (fun k' => same_value_zero k' key) (List.map fst map))
      eqn:H; [|reflexivity].
    apply existsb_exists in H. destruct H as (k' & Hin & Hk').
    apply (existsb_false_In _ _ _ Hk) in Hin.
    unfold same_value_zero in *.
    rewrite strict_eq_sym in E.
    rewrite (strict_eq_trans _ _ _ Hk' E) in Hin. discriminate.
  - intro H. rewrite (IH Hd H). f_equal. unfold extended. simpl.
    rewrite values_of_cons_other
      by (unfold same_value_zero in *; now rewrite strict_eq_sym).
    reflexivity.
Qed.

Lemma distinct_app_absent (keys : list jsval) key :
  distinct keys ->
  existsb (fun k => same_value_zero k key) keys = false ->
  distinct (keys ++ [key]).
Proof.
  induction keys as [|k keys IH]; simpl; [tauto|].
  intros [Hk Hd] H. apply orb_false_iff in H. destruct H as [Hkk H].
  split; [|now apply IH].
  rewrite existsb_app, Hk. simpl.
  unfold same_value_zero in *. rewrite strict_eq_sym, Hkk. reflexivity.
Qed.

Lemma map_values_of_other (keys : list jsval) key (value : V) entries :
  (forall k, In k keys -> same_value_zero key k = false) ->
  List.map (fun k => (k, values_of k ((key, value) :: entries))) keys
  = List.map (fun k => (k, values_of k entries)) keys.
Proof.
  intro H. apply map_ext_in. intros k Hin.
  now rewrite values_of_cons_other by now apply H.
Qed.

Lemma grouping_loop_groups (it : list (jsval * V)) :
  forall map : JsMap.t (list V),
    distinct (List.map fst map) ->
    EntryFlow.grouping_loop map it
    = List.map (extended it) map
        ++ List.map (fun key => (key, values_of key it))
             (first_seen (List.map fst map) (List.map fst it)).
Proof.
  induction it as [|[key value] rest IH]; intros map Hd.
  - simpl. rewrite app_nil_r. unfold JsMap.entries.
    rewrite <- (map_id map) at 1. apply map_ext.
    intros [k vs]. unfold extended, values_of. simpl. now rewrite app_nil_r.
  - cbn [EntryFlow.grouping_loop List.map fst first_seen].
    rewrite <- has_existsb.
    destruct (JsMap.has map key) eqn:Hhas; cbn [negb].
    + rewrite IH by (now rewrite update_keys).
      rewrite update_keys, map_extended_update by assumption.
      f_equal. symmetry. apply map_values_of_other.
      intros k Hin. eapply first_seen_not_seen; [|exact Hin].
      now rewrite <- has_existsb.
    + rewrite set_absent by exact Hhas.
      rewrite update_absent by exact Hhas.
      cbn [JsMap.update]. unfold same_value_zero at 1.
      rewrite strict_eq_refl. cbn [app].
      rewrite IH.
      * rewrite !map_app. cbn [List.map fst].
        rewrite <- app_assoc. cbn [app].
        rewrite map_extended_other by exact Hhas.
        f_equal. unfold extended at 1. cbn [fst snd app].
        rewrite values_of_cons_same
          by (unfold same_value_zero; apply strict_eq_refl).
        f_equal. symmetry. apply map_values_of_other.
        intros k Hin.
        eapply first_seen_not_seen; [|exact Hin].
        rewrite existsb_app. simpl. unfold same_value_zero at 2.
        rewrite strict_eq_refl. now rewrite orb_true_r.
      * rewrite map_app. simpl. apply distinct_app_absent; [exact Hd|].
        now rewrite <- has_existsb.
Qed.

(** [grouping] yields one group per distinct key, in first-seen order, with
    all the values of the key in order. *)
Lemma grouping_groups (this : EntryFlow.EntryFlow jsval V) :
  EntryFlow.toArray (EntryFlow.grouping this)
  = groups (EntryFlow.toArray this).
Proof.
  unfold EntryFlow.grouping. rewrite EntryFlow_toArray_of_iterable.
  now rewrite grouping_loop_groups.
Qed.

End Grouping.

Section Collapse.

(** C5 fails on the code for a key that is falsy (0, the empty string,
    [false], [null]): [collapseKeys] tests [collapseKey] for truth to know
    whether a run is open, so the run of a falsy key is never closed.  On
    [(0,"x"),(1,"y")] the two runs are merged under the key 1, and on
    [("",1)] nothing is yielded.  On the pairs of the spec's example, whose
    keys are truthy, both operations give what the claim says. *)
Theorem EntryFlow_collapseKeys_falsy_key :
  EntryFlow.toArray
    (EntryFlow.collapseKeys
       (EntryFlow.of_ (EntryFlow.Iterable [(VNum 0, "x"); (VNum 1, "y")])))
  = [(VNum 1, ["x"; "y"])]
  /\ EntryFlow.toArray
       (EntryFlow.collapseKeys
          (EntryFlow.of_ (EntryFlow.Iterable [(VStr "", 1)])))
     = []
  /\ EntryFlow.toArray
       (EntryFlow.grouping
          (EntryFlow.of_ (EntryFlow.Iterable [(VNum 0, "x"); (VNum 1, "y")])))
     = [(VNum 0, ["x"]); (VNum 1, ["y"])]
  /\ EntryFlow.toArray
       (EntryFlow.collapseKeys
          (EntryFlow.of_
             (EntryFlow.Iterable
                [(VStr "a", 1); (VStr "a", 2); (VStr "b", 3); (VStr "a", 4)])))
     = [(VStr "a", [1; 2]); (VStr "b", [3]); (VStr "a", [4])]
  /\ EntryFlow.toArray
       (EntryFlow.grouping
          (EntryFlow.of_
             (EntryFlow.Iterable
                [(VStr "a", 1); (VStr "a", 2); (VStr "b", 3); (VStr "a", 4)])))
     = [(VStr "a", [1; 2; 4]); (VStr "b", [3])].
Proof. repeat split. Qed.

End Collapse.

(** ** Flow: sort and sortBy *)

Section Sorting.

Lemma consistent_tie_sym compare x y :
  consistent compare -> compare x y = 0 -> compare y x = 0.
Proof.
  intros [Ha _] H.
  destruct (Z.lt_trichotomy (compare y x) 0) as [L | [E | G]].
  - apply Ha in L. lia.
  - exact E.
  - apply Ha in G. lia.
Qed.

Lemma consistent_total compare x y :
  consistent compare -> 0 < compare x y -> compare y x <= 0.
Proof. intros [Ha _] H. apply Ha in H. lia. Qed.

Lemma consistent_tie_trans compare x y z :
  consistent compare ->
  compare x y = 0 -> compare x z = 0 -> compare y z = 0.
Proof.
  intros Hc Hxy Hxz.
  pose proof (consistent_tie_sym _ _ _ Hc Hxy) as Hyx.
  pose proof (consistent_tie_sym _ _ _ Hc Hxz) as Hzx.
  destruct Hc as [Ha Ht].
  assert (Hyz : compare y z <= 0) by (apply (Ht y x z); lia).
  assert (Hzy : compare z y <= 0) by (apply (Ht z x y); lia).
  destruct (Z.lt_trichotomy (compare y z) 0) as [L | [E | G]]; try lia.
  apply Ha in L. lia.
Qed.

(** *** The default order: strings by code units *)

Lemma string_compare_le_trans (a : string) :
  forall b c,
    String.compare a b <> Gt -> String.compare b c <> Gt ->
    String.compare a c <> Gt.
Proof.
  induction a as [|x a IH]; intros [|y b] [|z c]; simpl; try congruence.
  unfold Ascii.compare.
  destruct (N.compare_spec (N_of_ascii x) (N_of_ascii y)) as [Exy|Lxy|Gxy];
    destruct (N.compare_spec (N_of_ascii y) (N_of_ascii z)) as [Eyz|Lyz|Gyz];
    destruct (N.compare_spec (N_of_ascii x) (N_of_ascii z)) as [Exz|Lxz|Gxz];
    try congruence; try lia.
  apply IH.
Qed.

Lemma string_order_antisym a b :
  string_order a b < 0 <-> 0 < string_order b a.
Proof.
  unfold string_order. rewrite (String.compare_antisym a b).
  destruct (String.compare b a); simpl; lia.
Qed.

Lemma string_order_trans a b c :
  string_order a b <= 0 -> string_order b c <= 0 -> string_order a c <= 0.
Proof.
  unfold string_order. intros Hab Hbc.
  assert (H : String.compare a c <> Gt).
  { apply (string_compare_le_trans a b c).
    - destruct (String.compare a b); try congruence; lia.
    - destruct (String.compare b c); try congruence; lia. }
  destruct (String.compare a c); try lia. congruence.
Qed.

(** *** SortCompare *)

Lemma SortCompare_cases comparator x y :
  SortCompare comparator x y
  = if is_undefined x then (if is_undefined y then 0 else 1)
    else if is_undefined y then -1
         else defined_compare comparator x y.
Proof. destruct x, y; reflexivity. Qed.

Lemma defined_compare_consistent comparator :
  match comparator with
  | Some comparefn => consistent comparefn
  | None => True
  end ->
  consistent (defined_compare comparator).
Proof.
  destruct comparator as [comparefn|]; simpl; intro H.
  - destruct H as [Ha Ht]. split; simpl; auto.
  - split; simpl.
    + intros x y. apply string_order_antisym.
    + intros x y z. apply string_order_trans.
Qed.

Lemma SortCompare_consistent comparator :
  match comparator with
  | Some comparefn => consistent comparefn
  | None => True
  end ->
  consistent (SortCompare comparator).
Proof.
  intro H. apply defined_compare_consistent in H. destruct H as [Ha Ht].
  split.
  - intros x y. rewrite !SortCompare_cases.
    destruct (is_undefined x), (is_undefined y); try lia. apply Ha.
  - intros x y z. rewrite !SortCompare_cases.
    destruct (is_undefined x), (is_undefined y), (is_undefined z);
      try lia. apply Ht.
Qed.

(** *** The insertion sort *)

Lemma sort_insert_Permutation compare x sorted :
  Permutation (x :: sorted) (sort_insert compare x sorted).
Proof.
  induction sorted as [|y rest IH]; simpl.
  - apply Permutation_refl.
  - destruct (compare x y <=? 0).
    + apply Permutation_refl.
    + eapply Permutation_trans; [apply perm_swap|].
      now apply perm_skip.
Qed.

Lemma array_sort_Permutation comparator array :
  Permutation array (array_sort comparator array).
Proof.
  unfold array_sort. induction array as [|x array IH]; simpl.
  - apply Permutation_refl.
  - eapply Permutation_trans; [apply perm_skip, IH|].
    apply sort_insert_Permutation.
Qed.

Lemma sort_insert_ascending compare x sorted :
  consistent compare ->
  ascending compare sorted -> ascending compare (sort_insert compare x sorted).
Proof.
  intros Hc. unfold ascending.
  induction sorted as [|y rest IH]; simpl; intro Hs.
  - constructor; constructor.
  - inversion Hs as [|? ? Hrest Hall]; subst.
    destruct (compare x y <=? 0) eqn:Hxy.
    + apply Z.leb_le in Hxy. constructor; [exact Hs|].
      constructor; [exact Hxy|].
      eapply Forall_impl; [|exact Hall].
      intros z Hyz. simpl in Hyz.
      now apply (consistent_trans _ Hc x y z).
    + apply Z.leb_gt in Hxy. constructor; [now apply IH|].
      eapply Permutation_Forall; [apply sort_insert_Permutation|].
      constructor; [|exact Hall].
      now apply consistent_total.
Qed.

Lemma array_sort_ascending comparator array :
  consistent (SortCompare comparator) ->
  ascending (SortCompare comparator) (array_sort comparator array).
Proof.
  intro Hc. unfold array_sort.
  induction array as [|x array IH]; simpl.
  - constructor.
  - now apply sort_insert_ascending.
Qed.

Lemma sort_insert_ties compare x sorted z :
  consistent compare ->
  filter (ties compare z) (sort_insert compare x sorted)
  = filter (ties compare z) (x :: sorted).
Proof.
  intro Hc. induction sorted as [|y rest IH]; [reflexivity|].
  cbn [sort_insert].
  destruct (compare x y <=? 0) eqn:Hxy; [reflexivity|].
  apply Z.leb_gt in Hxy.
  cbn [filter] in *. rewrite IH.
  destruct (ties compare z x) eqn:Hzx; [|reflexivity].
  destruct (ties compare z y) eqn:Hzy; [|reflexivity].
  unfold ties in Hzx, Hzy. apply Z.eqb_eq in Hzx, Hzy.
  pose proof (consistent_tie_trans _ _ _ _ Hc Hzx Hzy). lia.
Qed.

Lemma array_sort_ties comparator array z :
  consistent (SortCompare comparator) ->
  filter (ties (SortCompare comparator) z) (array_sort comparator array)
  = filter (ties (SortCompare comparator) z) array.
Proof.
  intro Hc. unfold array_sort.
  induction array as [|x array IH]; [reflexivity|].
  cbn [fold_right]. rewrite sort_insert_ties by exact Hc.
  cbn [filter]. now rewrite IH.
Qed.

(** *** sort and sortBy *)

Lemma array_sort_sorted_stably comparator array :
  consistent (SortCompare comparator) ->
  sorted_stably (SortCompare comparator) array (array_sort comparator array).
Proof.
  intro Hc. split; [|split].
  - apply array_sort_Permutation.
  - now apply array_sort_ascending.
  - intro z. now apply array_sort_ties.
Qed.

Lemma toArray_of_iterable it : Flow.toArray (Flow.of_iterable it) = it.
Proof.
  unfold Flow.toArray, Flow.iterate, Flow.of_iterable. simpl.
  apply app_nil_r.
Qed.

Lemma numeric_comparator_consistent : consistent numeric_comparator.
Proof.
  split; unfold numeric_comparator; intros; lia.
Qed.

(** C4, as the spec states it, fails: [sort()] with no comparator does not
    put numbers in numerical order; [of(10, 9, 1).sort()] drains to
    [1, 10, 9], the order of the strings "1", "10", "9".  And an
    [undefined] element is moved last whatever the comparator says:
    [of(undefined, 1).sort(() => 0)] drains to [1, undefined]. *)
Lemma Flow_sort_default_is_not_numeric :
  Flow.toArray (Flow.sort None (Flow.of_ [VNum 10; VNum 9; VNum 1]))
  = [VNum 1; VNum 10; VNum 9]
  /\ numerically_ascending
       (Flow.toArray (Flow.sort None (Flow.of_ [VNum 10; VNum 9; VNum 1])))
     = false
  /\ Flow.toArray
       (Flow.sort (Some (fun _ _ => 0)) (Flow.of_ [VUndefined; VNum 1]))
     = [VNum 1; VUndefined].
Proof. repeat split. Qed.

(** C4, amended: [sort()] with no comparator yields the elements
    rearranged into the ascending order of their string forms, compared by
    code units; [sort] with a consistent comparator and [sortBy] with a
    consistent comparator on the keys yield the elements in ascending order
    of the comparator, [sortBy] comparing the extracted keys only; all three
    are stable.  In each case an [undefined] element is not compared: it
    goes after every other element. *)
Theorem Flow_sort_order_and_stability
    (comparator keyComparator : jsval -> jsval -> Z)
    (extractor : jsval -> jsval) (this : Flow.Flow) :
  consistent comparator ->
  consistent keyComparator ->
  sorted_stably (SortCompare None)
    (Flow.toArray this) (Flow.toArray (Flow.sort None this))
  /\ sorted_stably (SortCompare (Some comparator))
       (Flow.toArray this) (Flow.toArray (Flow.sort (Some comparator) this))
  /\ sorted_stably
       (SortCompare
          (Some (fun x y => keyComparator (extractor x) (extractor y))))
       (Flow.toArray this)
       (Flow.toArray (Flow.sortBy extractor keyComparator this))
  /\ (forall x y,
        x <> VUndefined -> y <> VUndefined ->
        SortCompare None x y = string_order (to_string x) (to_string y)
        /\ SortCompare (Some comparator) x y = comparator x y
        /\ SortCompare
             (Some (fun x y => keyComparator (extractor x) (extractor y)))
             x y
           = keyComparator (extractor x) (extractor y))
  /\ (forall comparefn x,
        x <> VUndefined ->
        SortCompare comparefn x VUndefined = -1
        /\ SortCompare comparefn VUndefined x = 1).
Proof.
  intros Hc Hk.
  unfold Flow.sort, Flow.sortBy, Flow.Array_from.
  rewrite !toArray_of_iterable. unfold Flow.toArray.
  split; [|split; [|split; [|split]]].
  - apply array_sort_sorted_stably.
    now apply (SortCompare_consistent None).
  - apply array_sort_sorted_stably.
    now apply (SortCompare_consistent (Some comparator)).
  - apply array_sort_sorted_stably.
    apply (SortCompare_consistent (Some _)).
    destruct Hk as [Ha Ht]. split.
    + intros x y. apply Ha.
    + intros x y z. apply Ht.
  - intros x y Hx Hy. rewrite !SortCompare_cases.
    destruct x, y; try congruence; repeat split.
  - intros comparefn x Hx. destruct x; try congruence; split; reflexivity.
Qed.

Lemma Flow_sort_order_and_stability_witness :
  consistent numeric_comparator
  /\ sorted_stably (SortCompare (Some numeric_comparator))
       [VNum 3; VNum 1; VNum 2]
       (Flow.toArray
          (Flow.sort (Some numeric_comparator)
             (Flow.of_ [VNum 3; VNum 1; VNum 2]))).
Proof.
  split.
  - exact numeric_comparator_consistent.
  - exact (proj1 (proj2
             (Flow_sort_order_and_stability
                numeric_comparator numeric_comparator (fun v => v)
                (Flow.of_ [VNum 3; VNum 1; VNum 2])
                numeric_comparator_consistent
                numeric_comparator_consistent))).
Defined.

End Sorting.

(** * Further properties of the combinators *)

(** ** Item: how the combinators compose *)

Section ItemAlgebra.

(** X1. [flatMap] and [of] obey the monad laws on Optionals, read up to
    the fact that every empty Optional counts as [Item.empty]: binding
    [of(v)] to [f] is [f(v)] unless [v] is nullish, binding to [of] gives
    the Optional back unless it is empty, and two binds in a row
    associate. *)
Theorem Item_flatMap_laws :
  (forall (f : jsval -> Item.Item) v,
      Item.flatMap f (Item.of_ v) = if is_nullish v then Item.empty else f v)
  /\ (forall this,
        Item.flatMap Item.of_ this
        = if Item.isEmpty this then Item.empty else this)
  /\ (forall (f g : jsval -> Item.Item) this,
        Item.flatMap g (Item.flatMap f this)
        = Item.flatMap (fun v => Item.flatMap g (f v)) this).
Proof.
  split; [|split].
  - intros f v. unfold Item.flatMap, Item.isEmpty, Item.of_. simpl.
    now destruct (is_nullish v).
  - intros [v]. unfold Item.flatMap, Item.isEmpty, Item.of_. simpl.
    now destruct (is_nullish v).
  - intros f g [v]. unfold Item.flatMap at 2 3. unfold Item.isEmpty. simpl.
    now destruct (is_nullish v).
Qed.

(** X2. Two [map]s in a row are the [map] of the composed function,
    except when the first function returns a nullish value on a present
    Optional: then the result is empty and the second function is not
    applied. *)
Theorem Item_map_composition :
  forall (f g : jsval -> jsval) (this : Item.Item),
    Item.map g (Item.map f this)
    = if Item.isPresent this && is_nullish (f (Item.value this))
      then Item.empty
      else Item.map (fun v => g (f v)) this.
Proof.
  intros f g [v].
  unfold Item.map, Item.isPresent, Item.isEmpty, Item.of_. simpl.
  destruct (is_nullish v); simpl; [reflexivity|].
  now destruct (is_nullish (f v)).
Qed.

(** X3. [filter] keeps a present value exactly when the predicate holds;
    two filters in a row are the filter of the conjunction; [filterBy] is
    the filter that asks for a non-nullish extracted value that satisfies
    the predicate. *)
Theorem Item_filter_composition :
  forall (p q : jsval -> bool) (extractor : jsval -> jsval)
         (this : Item.Item),
    Item.isPresent (Item.filter p this)
    = Item.isPresent this && p (Item.value this)
    /\ Item.filter p (Item.filter q this)
       = Item.filter (fun v => q v && p v) this
    /\ Item.filterBy extractor p this
       = Item.filter
           (fun v => negb (is_nullish (extractor v)) && p (extractor v))
           this.
Proof.
  intros p q extractor [v].
  unfold Item.filter, Item.filterBy, Item.isPresent, Item.isEmpty. simpl.
  destruct (is_nullish v) eqn:Hv; simpl; rewrite ?Hv; simpl; rewrite ?Hv;
    [repeat split|].
  destruct (p v) eqn:Hp, (q v) eqn:Hq, (is_nullish (extractor v));
    simpl; rewrite ?Hv, ?Hp; simpl; rewrite ?Hv; repeat split.
Qed.


End ItemAlgebra.

(** ** Flow: the lazy operations *)

Section FlowLazy.

Lemma Flow_iterate_of_iterable it : Flow.iterate (Flow.of_iterable it) = it.
Proof. unfold Flow.iterate, Flow.of_iterable. simpl. apply app_nil_r. Qed.

Lemma map_loop_calls mapper (it : list jsval) :
  forall index,
    Flow.map_loop mapper index it
    = map (fun call => mapper (fst call) (snd call)) (calls_on index it).
Proof.
  unfold calls_on.
  induction it as [|value rest IH]; intro index; simpl; [reflexivity|].
  now rewrite IH.
Qed.

Lemma map_loop_compose f g (it : list jsval) :
  forall index,
    Flow.map_loop g index (Flow.map_loop f index it)
    = Flow.map_loop (fun value i => g (f value i) i) index it.
Proof.
  induction it as [|value rest IH]; intro index; simpl; [reflexivity|].
  now rewrite IH.
Qed.

Lemma map_loop_length mapper (it : list jsval) :
  forall index, length (Flow.map_loop mapper index it) = length it.
Proof.
  induction it as [|value rest IH]; intro index; simpl; [reflexivity|].
  now rewrite IH.
Qed.

(** X5. [map] applies the mapper to every element with its position, in
    order, so the result has as many elements as the receiver; two [map]s
    in a row are the [map] of the composed mapper, each step seeing the
    same index. *)
Theorem Flow_map_composition :
  forall (f g : jsval -> nat -> jsval) (this : Flow.Flow),
    Flow.toArray (Flow.map f this)
    = map (fun call => f (fst call) (snd call))
        (calls_on 0 (Flow.toArray this))
    /\ Flow.count (Flow.map f this) = Flow.count this
    /\ Flow.toArray (Flow.map g (Flow.map f this))
       = Flow.toArray (Flow.map (fun value index => g (f value index) index)
                         this).
Proof.
  intros f g this. unfold Flow.map, Flow.count, Flow.toArray.
  rewrite !Flow_iterate_of_iterable.
  split; [|split].
  - apply map_loop_calls.
  - rewrite !count_loop_length, map_loop_length. reflexivity.
  - apply map_loop_compose.
Qed.

Lemma filter_loop_calls predicate (it : list jsval) :
  forall index,
    Flow.filter_loop predicate index it
    = map fst
        (filter (fun call => predicate (fst call) (snd call))
           (calls_on index it)).
Proof.
  unfold calls_on.
  induction it as [|value rest IH]; intro index; simpl; [reflexivity|].
  rewrite IH. now destruct (predicate value index).
Qed.

Lemma filter_loop_partition predicate (it : list jsval) :
  forall index,
    Permutation
      (Flow.filter_loop predicate index it
         ++ Flow.filter_loop (fun value i => negb (predicate value i))
              index it)
      it.
Proof.
  induction it as [|value rest IH]; intro index; simpl; [constructor|].
  destruct (predicate value index); simpl.
  - apply perm_skip, IH.
  - eapply Permutation_trans; [apply Permutation_sym, Permutation_middle|].
    apply perm_skip, IH.
Qed.

Lemma filter_loop_ignoring_index accept (it : list jsval) :
  forall index,
    Flow.filter_loop (fun value _ => accept value) index it
    = filter accept it.
Proof.
  induction it as [|value rest IH]; intro index; simpl; [reflexivity|].
  now rewrite IH.
Qed.

(** X6. [filter] keeps, in order, the elements on which the predicate
    holds, the predicate being given the position of the element in the
    source; [remove] keeps the others, so that the two split the receiver:
    together they hold every element once. *)
Theorem Flow_filter_remove_partition :
  forall (predicate : jsval -> nat -> bool) (this : Flow.Flow),
    Flow.toArray (Flow.filter predicate this)
    = map fst
        (filter (fun call => predicate (fst call) (snd call))
           (calls_on 0 (Flow.toArray this)))
    /\ Permutation
         (Flow.toArray (Flow.filter predicate this)
            ++ Flow.toArray (Flow.remove predicate this))
         (Flow.toArray this)
    /\ (Flow.count (Flow.filter predicate this)
        + Flow.count (Flow.remove predicate this)
        = Flow.count this)%nat.
Proof.
  intros predicate this.
  unfold Flow.remove, Flow.filter, Flow.count, Flow.toArray.
  rewrite !Flow_iterate_of_iterable.
  split; [|split].
  - apply filter_loop_calls.
  - apply filter_loop_partition.
  - rewrite !count_loop_length. simpl. rewrite <- length_app.
    apply Permutation_length, filter_loop_partition.
Qed.

(** X7. [reverse] yields the elements in the opposite order, whatever the
    sources they came from; reversing twice gives the elements back. *)
Theorem Flow_reverse_involutive :
  forall this : Flow.Flow,
    Flow.toArray (Flow.reverse this) = rev (Flow.toArray this)
    /\ Flow.toArray (Flow.reverse (Flow.reverse this)) = Flow.toArray this
    /\ Flow.count (Flow.reverse this) = Flow.count this.
Proof.
  intro this. unfold Flow.reverse, Flow.Array_from, Flow.count, Flow.toArray.
  rewrite !Flow_iterate_of_iterable.
  split; [reflexivity|]. split; [apply rev_involutive|].
  now rewrite !count_loop_length, length_rev.
Qed.

Lemma some_loop_every_loop predicate (it : list jsval) :
  forall index,
    fst (fst (Flow.every_loop predicate index it))
    = negb (fst (fst (Flow.some_loop
                        (fun value i => negb (predicate value i)) index it))).
Proof.
  induction it as [|value rest IH]; intro index; simpl; [reflexivity|].
  destruct (predicate value index); simpl; [|reflexivity].
  specialize (IH (S index)).
  destruct (Flow.every_loop predicate (S index) rest) as [[r c] l].
  destruct (Flow.some_loop _ (S index) rest) as [[r' c'] l'].
  exact IH.
Qed.

Lemma some_loop_existsb accept (it : list jsval) :
  forall index,
    fst (fst (Flow.some_loop (fun value _ => accept value) index it))
    = existsb accept it.
Proof.
  induction it as [|value rest IH]; intro index; simpl; [reflexivity|].
  destruct (accept value); simpl; [reflexivity|].
  specialize (IH (S index)).
  now destruct (Flow.some_loop _ (S index) rest) as [[r c] l].
Qed.

(** X8. [some], [every] and [none] are dual: [every(p)] holds when no
    element falsifies [p], and [none(p)] is [every] of the negated
    predicate.  On a flow with no element [some] is false and [every] and
    [none] are true.  When the predicate ignores the index, [some] tells
    whether an element satisfies it. *)
Theorem Flow_some_every_none_duality :
  (forall (predicate : jsval -> nat -> bool) (this : Flow.Flow),
      Flow.every predicate this
      = negb (Flow.some (fun value index => negb (predicate value index))
                this)
      /\ Flow.none predicate this
         = Flow.every (fun value index => negb (predicate value index)) this)
  /\ (forall predicate,
        Flow.some predicate Flow.empty = false
        /\ Flow.every predicate Flow.empty = true
        /\ Flow.none predicate Flow.empty = true)
  /\ (forall (accept : jsval -> bool) (this : Flow.Flow),
        Flow.some (fun value _ => accept value) this
        = existsb accept (Flow.toArray this)).
Proof.
  split; [|split].
  - intros predicate this.
    unfold Flow.none, Flow.every, Flow.some, Flow.every_run, Flow.some_run.
    split.
    + apply some_loop_every_loop.
    + rewrite some_loop_every_loop. f_equal. f_equal. f_equal.
      clear. generalize 0%nat. induction (Flow.iterate this) as [|v l IH];
        intro index; simpl; [reflexivity|].
      rewrite negb_involutive. now rewrite IH.
  - intro predicate. repeat split.
  - intros accept this. apply some_loop_existsb.
Qed.

End FlowLazy.

(** ** Set and Map *)

Section SetsAndMaps.

Lemma same_value_zero_trans x y z :
  same_value_zero x y = true -> same_value_zero y z = true ->
  same_value_zero x z = true.
Proof. apply strict_eq_trans. Qed.

Lemma same_value_zero_sym x y : same_value_zero x y = same_value_zero y x.
Proof. apply strict_eq_sym. Qed.

Lemma same_value_zero_refl x : same_value_zero x x = true.
Proof. apply strict_eq_refl. Qed.

(** Two values that are the same are the same as the same values. *)
Lemma same_value_zero_congr x y z :
  same_value_zero x y = true -> same_value_zero x z = same_value_zero y z.
Proof.
  intro H. destruct (same_value_zero y z) eqn:E.
  - now apply (same_value_zero_trans x y z).
  - destruct (same_value_zero x z) eqn:E'; [|reflexivity].
    rewrite same_value_zero_sym in H.
    now rewrite (same_value_zero_trans y x z H E') in E.
Qed.

Lemma from_iterable_first_seen (it : list jsval) :
  forall set : JsSet.t, fold_left JsSet.add it set = set ++ first_seen set it.
Proof.
  induction it as [|value rest IH]; intro set; simpl.
  - now rewrite app_nil_r.
  - rewrite IH. unfold JsSet.add, JsSet.has.
    destruct (existsb (fun v => same_value_zero v value) set);
      [reflexivity|].
    now rewrite <- app_assoc.
Qed.

Lemma first_seen_members (keys : list jsval) :
  forall seen value,
    existsb (fun v => same_value_zero v value) (seen ++ first_seen seen keys)
    = existsb (fun v => same_value_zero v value) (seen ++ keys).
Proof.
  induction keys as [|key rest IH]; intros seen value; simpl;
    [reflexivity|].
  destruct (existsb (fun v => same_value_zero v key) seen) eqn:E.
  - rewrite IH, !existsb_app. simpl.
    destruct (same_value_zero key value) eqn:Ek; [|reflexivity].
    apply existsb_exists in E. destruct E as (k' & Hin & Hk').
    assert (H : existsb (fun v => same_value_zero v value) seen = true).
    { apply existsb_exists. exists k'. split; [exact Hin|].
      now apply (same_value_zero_trans k' key value). }
    now rewrite H.
  - replace (seen ++ key :: first_seen (seen ++ [key]) rest)
      with ((seen ++ [key]) ++ first_seen (seen ++ [key]) rest)
      by now rewrite <- app_assoc.
    rewrite IH. now rewrite <- app_assoc.
Qed.

Lemma first_seen_distinct (keys : list jsval) :
  forall seen, distinct seen -> distinct (seen ++ first_seen seen keys).
Proof.
  induction keys as [|key rest IH]; intros seen Hd; simpl.
  - now rewrite app_nil_r.
  - destruct (existsb (fun v => same_value_zero v key) seen) eqn:E.
    + now apply IH.
    + replace (seen ++ key :: first_seen (seen ++ [key]) rest)
        with ((seen ++ [key]) ++ first_seen (seen ++ [key]) rest)
        by now rewrite <- app_assoc.
      apply IH. now apply distinct_app_absent.
Qed.

Lemma distinct_not_seen (seen : list jsval) key rest :
  distinct (seen ++ key :: rest) ->
  existsb (fun v => same_value_zero v key) seen = false.
Proof.
  induction seen as [|s seen IH]; simpl; [reflexivity|].
  intros [Hs Hd]. rewrite (IH Hd), orb_false_r.
  rewrite existsb_app in Hs. simpl in Hs.
  apply orb_false_iff in Hs. destruct Hs as [_ Hs].
  apply orb_false_iff in Hs. destruct Hs as [Hs _].
  now rewrite same_value_zero_sym.
Qed.

Lemma first_seen_of_distinct (keys : list jsval) :
  forall seen, distinct (seen ++ keys) -> first_seen seen keys = keys.
Proof.
  induction keys as [|key rest IH]; intros seen Hd; simpl; [reflexivity|].
  rewrite (distinct_not_seen _ _ _ Hd). f_equal. apply IH.
  now rewrite <- app_assoc.
Qed.

Lemma has_from_iterable (it : list jsval) value :
  JsSet.has (JsSet.from_iterable it) value
  = existsb (fun v => same_value_zero v value) it.
Proof.
  unfold JsSet.has, JsSet.from_iterable.
  rewrite from_iterable_first_seen. apply (first_seen_members it []).
Qed.

End SetsAndMaps.

(** ** Flow: materializing operations and terminal operations *)

Section FlowTerminal.

(** X9. [distinct] yields each value once, at the place of its first
    occurrence: no two elements of the result are the same value, a value
    is in the result exactly when it is in the receiver, and [distinct] of
    the result changes nothing.  [toSet] holds the same values. *)
Theorem Flow_distinct_first_occurrences :
  forall this : Flow.Flow,
    Flow.toArray (Flow.distinct this) = first_seen [] (Flow.toArray this)
    /\ distinct (Flow.toArray (Flow.distinct this))
    /\ (forall value,
          existsb (fun v => same_value_zero v value)
            (Flow.toArray (Flow.distinct this))
          = existsb (fun v => same_value_zero v value) (Flow.toArray this))
    /\ Flow.toArray (Flow.distinct (Flow.distinct this))
       = Flow.toArray (Flow.distinct this)
    /\ JsSet.values (Flow.toSet this) = Flow.toArray (Flow.distinct this).
Proof.
  intro this.
  unfold Flow.distinct, Flow.toSet, Flow.toArray, JsSet.values,
    JsSet.from_iterable.
  rewrite !Flow_iterate_of_iterable, !from_iterable_first_seen. simpl.
  pose proof (first_seen_distinct (Flow.iterate this) [] I) as Hd.
  simpl in Hd.
  split; [reflexivity|]. split; [exact Hd|]. split; [|split].
  - intro value. apply (first_seen_members (Flow.iterate this) []).
  - now apply first_seen_of_distinct.
  - reflexivity.
Qed.

Lemma findFirst_filter_nonNull (it : list jsval) :
  Item.isPresent
    (match filter (fun v => negb (is_nullish v)) it with
     | value :: _ => Item.of_ value
     | [] => Item.empty
     end)
  = existsb (fun v => negb (is_nullish v)) it.
Proof.
  induction it as [|value rest IH]; simpl; [reflexivity|].
  destruct (is_nullish value) eqn:E; simpl; [exact IH|].
  unfold Item.isPresent, Item.isEmpty. simpl. now rewrite E.
Qed.

(** X10. [nonNull] keeps exactly the elements that are neither [null] nor
    [undefined], and [without] exactly those that are none of its
    arguments.  [findFirst] on a flow whose first element is nullish
    answers the empty Optional although the flow has elements; after
    [nonNull] it is present exactly when some element is not nullish. *)
Theorem Flow_nonNull_without_findFirst :
  forall (arguments : list jsval) (this : Flow.Flow),
    Flow.toArray (Flow.nonNull this)
    = filter (fun v => negb (is_nullish v)) (Flow.toArray this)
    /\ Flow.toArray (Flow.without arguments this)
       = filter
           (fun v =>
              negb (existsb (fun a => same_value_zero a v) arguments))
           (Flow.toArray this)
    /\ Item.isPresent (Flow.findFirst this)
       = match Flow.toArray this with
         | value :: _ => negb (is_nullish value)
         | [] => false
         end
    /\ Item.isPresent (Flow.findFirst (Flow.nonNull this))
       = existsb (fun v => negb (is_nullish v)) (Flow.toArray this).
Proof.
  intros arguments this.
  unfold Flow.nonNull, Flow.without, Flow.filter, Flow.findFirst,
    Flow.findFirst_rest, Flow.toArray.
  rewrite !Flow_iterate_of_iterable, !filter_loop_ignoring_index.
  split; [reflexivity|]. split; [|split].
  - apply filter_ext. intro v. now rewrite has_from_iterable.
  - destruct (Flow.iterate this) as [|value rest]; reflexivity.
  - rewrite <- findFirst_filter_nonNull.
    now destruct (filter _ (Flow.iterate this)).
Qed.

Lemma reduce_loop_app {U : Type} (reducer : U -> jsval -> nat -> U)
    (first second : list jsval) :
  forall index accumulator,
    Flow.reduce_loop reducer index accumulator (first ++ second)
    = Flow.reduce_loop reducer (index + length first)
        (Flow.reduce_loop reducer index accumulator first) second.
Proof.
  induction first as [|value rest IH]; intros index accumulator; simpl.
  - now rewrite Nat.add_0_r.
  - rewrite IH. now rewrite <- plus_n_Sm.
Qed.

Lemma reduce_loop_calls {U : Type} (reducer : U -> jsval -> nat -> U)
    (it : list jsval) :
  forall index accumulator,
    Flow.reduce_loop reducer index accumulator it
    = fold_left (fun acc call => reducer acc (fst call) (snd call))
        (calls_on index it) accumulator.
Proof.
  unfold calls_on.
  induction it as [|value rest IH]; intros index accumulator; simpl;
    [reflexivity|].
  apply IH.
Qed.

Lemma into_array_loop_app (it array : list jsval) :
  Flow.into_array_loop array it = array ++ it.
Proof.
  revert array. induction it as [|value rest IH]; intro array; simpl.
  - now rewrite app_nil_r.
  - rewrite IH. now rewrite <- app_assoc.
Qed.

(** X11. [reduce] folds the reducer over the elements from left to
    right, giving each its position; reducing a flow to which a source was
    appended is reducing the receiver and going on over the new source,
    the index going on from the number of elements of the receiver. *)
Theorem Flow_reduce_append :
  forall (U : Type) (reducer : U -> jsval -> nat -> U) (initialValue : U)
         (arguments : list jsval) (this : Flow.Flow),
    Flow.reduce reducer initialValue this
    = fold_left (fun acc call => reducer acc (fst call) (snd call))
        (calls_on 0 (Flow.toArray this)) initialValue
    /\ Flow.reduce reducer initialValue (Flow.append arguments this)
       = Flow.reduce_loop reducer (Flow.count this)
           (Flow.reduce reducer initialValue this) (Flow.source arguments).
Proof.
  intros U reducer initialValue arguments this. split.
  - apply reduce_loop_calls.
  - unfold Flow.reduce, Flow.count.
    fold (Flow.toArray (Flow.append arguments this)).
    rewrite toArray_append, reduce_loop_app, count_loop_length.
    reflexivity.
Qed.

(** X12. [count] is the number of elements that [toArray] gives; it adds
    up over [append] and [prepend]; [constant(value, n)] has [n] elements,
    all of them [value] itself, also when [value] could be iterated; and
    [into(array)] keeps what the array holds and pushes the elements
    after it. *)
Theorem Flow_count_and_into :
  forall (arguments array : list jsval) (value : jsval) (n : nat)
         (this : Flow.Flow),
    Flow.count this = length (Flow.toArray this)
    /\ Flow.count (Flow.append arguments this)
       = (Flow.count this + length (Flow.source arguments))%nat
    /\ Flow.count (Flow.prepend arguments this)
       = (length (Flow.source arguments) + Flow.count this)%nat
    /\ Flow.toArray (Flow.constant value n) = repeat value n
    /\ Flow.count (Flow.constant value n) = n
    /\ Flow.into_array array this = array ++ Flow.toArray this.
Proof.
  intros arguments array value n this.
  unfold Flow.count, Flow.constant, Flow.into_array.
  fold (Flow.toArray (Flow.append arguments this)).
  fold (Flow.toArray (Flow.prepend arguments this)).
  rewrite !count_loop_length, toArray_append, toArray_prepend.
  rewrite !length_app. unfold Flow.toArray.
  rewrite !Flow_iterate_of_iterable, repeat_length.
  repeat split. apply into_array_loop_app.
Qed.

Lemma flatMap_loop_calls mapper (it : list jsval) :
  forall index,
    Flow.flatMap_loop mapper index it
    = concat (map (fun call => mapper (fst call) (snd call))
                (calls_on index it)).
Proof.
  unfold calls_on.
  induction it as [|value rest IH]; intro index; simpl; [reflexivity|].
  now rewrite IH.
Qed.

Lemma flatMap_loop_singleton f (it : list jsval) :
  forall index,
    Flow.flatMap_loop (fun value i => [f value i]) index it
    = Flow.map_loop f index it.
Proof.
  induction it as [|value rest IH]; intro index; simpl; [reflexivity|].
  now rewrite IH.
Qed.

(** X13. [flatMap] yields, in order, the elements of the arrays that the
    mapper returns, an empty array giving nothing; with a mapper that
    returns one-element arrays it is [map]. *)
Theorem Flow_flatMap_concat :
  forall (mapper : jsval -> nat -> list jsval) (f : jsval -> nat -> jsval)
         (this : Flow.Flow),
    Flow.toArray (Flow.flatMap mapper this)
    = concat (map (fun call => mapper (fst call) (snd call))
                (calls_on 0 (Flow.toArray this)))
    /\ Flow.toArray (Flow.flatMap (fun value index => [f value index]) this)
       = Flow.toArray (Flow.map f this)
    /\ Flow.count (Flow.flatMap (fun _ _ => []) this) = 0%nat.
Proof.
  intros mapper f this. unfold Flow.flatMap, Flow.map, Flow.count, Flow.toArray.
  rewrite !Flow_iterate_of_iterable.
  split; [apply flatMap_loop_calls|]. split; [apply flatMap_loop_singleton|].
  rewrite count_loop_length, flatMap_loop_calls.
  generalize (calls_on 0 (Flow.iterate this)).
  induction l as [|c l IH]; simpl; [reflexivity|exact IH].
Qed.

End FlowTerminal.

(** ** Map: what a sequence of [set] leaves *)

Section MapSet.
Context {V : Type}.

Lemma get_set (map : JsMap.t V) key value key' :
  JsMap.get (JsMap.set map key value) key'
  = if same_value_zero key key' then Some value else JsMap.get map key'.
Proof.
  induction map as [|[k v] map IH]; simpl; [reflexivity|].
  destruct (same_value_zero k key) eqn:E; simpl.
  - rewrite (same_value_zero_congr k key key' E).
    now destruct (same_value_zero key key').
  - rewrite IH.
    destruct (same_value_zero k key') eqn:E'; [|reflexivity].
    destruct (same_value_zero key key') eqn:E''; [|reflexivity].
    rewrite same_value_zero_sym in E''.
    now rewrite (same_value_zero_trans _ _ _ E' E'') in E.
Qed.

Lemma JsMap_has_keys (map : JsMap.t V) key :
  JsMap.has map key
  = existsb (fun k => same_value_zero k key) (List.map fst map).
Proof.
  induction map as [|[k v] map IH]; simpl; [reflexivity|].
  now rewrite IH.
Qed.

Lemma keys_set (map : JsMap.t V) key value :
  List.map fst (JsMap.set map key value)
  = if JsMap.has map key then List.map fst map
    else List.map fst map ++ [key].
Proof.
  induction map as [|[k v] map IH]; simpl; [reflexivity|].
  destruct (same_value_zero k key); simpl; [reflexivity|].
  rewrite IH. now destruct (JsMap.has map key).
Qed.

Lemma find_app_first {A : Type} (f : A -> bool) (l1 l2 : list A) :
  find f (l1 ++ l2)
  = match find f l1 with
    | Some x => Some x
    | None => find f l2
    end.
Proof.
  induction l1 as [|x l1 IH]; simpl; [reflexivity|].
  now destruct (f x).
Qed.

Lemma get_set_all (entries : list (jsval * V)) :
  forall (map : JsMap.t V) key,
    JsMap.get (set_all map entries) key
    = match last_value key entries with
      | Some value => Some value
      | None => JsMap.get map key
      end.
Proof.
  unfold set_all, last_value, first_value.
  induction entries as [|[k v] rest IH]; intros map key; simpl;
    [reflexivity|].
  rewrite IH, find_app_first. simpl.
  destruct (find _ (rev rest)); simpl; [reflexivity|].
  rewrite get_set. now destruct (same_value_zero k key).
Qed.

Lemma keys_set_all (entries : list (jsval * V)) :
  forall map : JsMap.t V,
    List.map fst (set_all map entries)
    = List.map fst map
        ++ first_seen (List.map fst map) (List.map fst entries).
Proof.
  unfold set_all.
  induction entries as [|[k v] rest IH]; intro map; simpl.
  - now rewrite app_nil_r.
  - rewrite IH, keys_set, <- JsMap_has_keys.
    destruct (JsMap.has map k); [reflexivity|].
    now rewrite <- app_assoc.
Qed.

Lemma into_loop_set_all (it : list (jsval * V)) :
  forall map : JsMap.t V, EntryFlow.into_loop map it = set_all map it.
Proof.
  unfold set_all.
  induction it as [|[k v] rest IH]; intro map; simpl; [reflexivity|].
  apply IH.
Qed.

Lemma EntryFlow_reduce_loop_set_all (it : list (jsval * V)) :
  forall index (map : JsMap.t V),
    EntryFlow.reduce_loop
      (fun acc key value (_ : nat) => JsMap.set acc key value) index map it
    = set_all map it.
Proof.
  unfold set_all.
  induction it as [|[k v] rest IH]; intros index map; simpl; [reflexivity|].
  apply IH.
Qed.

Lemma Flow_reduce_loop_set_all keyExtractor (valueExtractor : jsval -> V)
    (it : list jsval) :
  forall index (map : JsMap.t V),
    Flow.reduce_loop
      (fun acc value (_ : nat) =>
         JsMap.set acc (keyExtractor value) (valueExtractor value))
      index map it
    = set_all map
        (List.map (fun value => (keyExtractor value, valueExtractor value))
           it).
Proof.
  unfold set_all.
  induction it as [|value rest IH]; intros index map; simpl; [reflexivity|].
  apply IH.
Qed.

(** X14. [toMap] and [into] of a pair sequence keep, for every key, the
    value of the last pair with that key, at the place where the key was
    first seen; a key of the map given to [into] that no pair has keeps
    its value and its place. *)
Theorem EntryFlow_toMap_last_write_wins :
  forall (map : JsMap.t V) (this : EntryFlow.EntryFlow jsval V),
    (forall key,
        JsMap.get (EntryFlow.toMap this) key
        = last_value key (EntryFlow.toArray this))
    /\ List.map fst (JsMap.entries (EntryFlow.toMap this))
       = first_seen [] (List.map fst (EntryFlow.toArray this))
    /\ (forall key,
          JsMap.get (EntryFlow.into map this) key
          = match last_value key (EntryFlow.toArray this) with
            | Some value => Some value
            | None => JsMap.get map key
            end)
    /\ List.map fst (JsMap.entries (EntryFlow.into map this))
       = List.map fst map
           ++ first_seen (List.map fst map)
                (List.map fst (EntryFlow.toArray this)).
Proof.
  intros map this.
  unfold EntryFlow.toMap, EntryFlow.into, EntryFlow.reduce, EntryFlow.toArray,
    JsMap.entries.
  rewrite EntryFlow_reduce_loop_set_all, into_loop_set_all.
  split; [|split; [|split]].
  - intro key. rewrite get_set_all.
    now destruct (last_value key (EntryFlow.iterate this)).
  - apply (keys_set_all _ []).
  - intro key. apply get_set_all.
  - apply keys_set_all.
Qed.

(** X15. [Flow.toMap] keeps, for every key that the key extractor gives,
    the extracted value of the last element with that key, the keys being
    in the order in which they were first seen. *)
Theorem Flow_toMap_last_write_wins :
  forall (keyExtractor : jsval -> jsval) (valueExtractor : jsval -> V)
         (this : Flow.Flow),
    (forall key,
        JsMap.get (Flow_toMap keyExtractor valueExtractor this) key
        = last_value key
            (List.map (fun value => (keyExtractor value, valueExtractor value))
               (Flow.toArray this)))
    /\ List.map fst
         (JsMap.entries (Flow_toMap keyExtractor valueExtractor this))
       = first_seen [] (List.map keyExtractor (Flow.toArray this)).
Proof.
  intros keyExtractor valueExtractor this.
  unfold Flow_toMap, Flow.reduce, Flow.toArray, JsMap.entries.
  rewrite Flow_reduce_loop_set_all. split.
  - intro key. rewrite get_set_all.
    now destruct (last_value key _).
  - rewrite (keys_set_all _ []). simpl. now rewrite map_map.
Qed.

End MapSet.

(** ** EntryFlow: the transformations *)

Section EntryFlowAlgebra.

Lemma EntryFlow_iterate_of_iterable {K V : Type} (it : list (K * V)) :
  EntryFlow.iterate (EntryFlow.of_ (EntryFlow.Iterable it)) = it.
Proof. unfold EntryFlow.iterate. simpl. apply app_nil_r. Qed.

Lemma invert_loop_invert_loop {K V : Type} (it : list (K * V)) :
  EntryFlow.invert_loop (EntryFlow.invert_loop it) = it.
Proof.
  induction it as [|[key value] rest IH]; simpl; [reflexivity|].
  now rewrite IH.
Qed.

Lemma invert_loop_sides {K V : Type} (it : list (K * V)) :
  map fst (EntryFlow.invert_loop it) = map snd it
  /\ map snd (EntryFlow.invert_loop it) = map fst it.
Proof.
  induction it as [|[key value] rest [IH1 IH2]]; simpl; [now split|].
  now rewrite IH1, IH2.
Qed.

(** X16. [invert] swaps the key and the value of every pair and keeps
    the order and the duplicates; inverting twice gives the pairs back. *)
Theorem EntryFlow_invert_involutive :
  forall (K V : Type) (this : EntryFlow.EntryFlow K V),
    EntryFlow.toArray (EntryFlow.invert (EntryFlow.invert this))
    = EntryFlow.toArray this
    /\ map fst (EntryFlow.toArray (EntryFlow.invert this))
       = map snd (EntryFlow.toArray this)
    /\ map snd (EntryFlow.toArray (EntryFlow.invert this))
       = map fst (EntryFlow.toArray this).
Proof.
  intros K V this. unfold EntryFlow.invert, EntryFlow.toArray.
  rewrite !EntryFlow_iterate_of_iterable.
  split; [apply invert_loop_invert_loop | apply invert_loop_sides].
Qed.

Lemma mapKeys_loop_values {K V U : Type} (mapper : K -> nat -> U)
    (it : list (K * V)) :
  forall index,
    map snd (EntryFlow.mapKeys_loop mapper index it) = map snd it.
Proof.
  induction it as [|[key value] rest IH]; intro index; simpl;
    [reflexivity|].
  now rewrite IH.
Qed.

Lemma mapValues_loop_keys {K V W : Type} (mapper : V -> nat -> W)
    (it : list (K * V)) :
  forall index,
    map fst (EntryFlow.mapValues_loop mapper index it) = map fst it.
Proof.
  induction it as [|[key value] rest IH]; intro index; simpl;
    [reflexivity|].
  now rewrite IH.
Qed.

Lemma mapKeys_mapValues_loop {K V U W : Type} (f : K -> nat -> U)
    (g : V -> nat -> W) (it : list (K * V)) :
  forall index,
    EntryFlow.mapValues_loop g index (EntryFlow.mapKeys_loop f index it)
    = EntryFlow.map_loop (fun key value i => (f key i, g value i)) index it
    /\ EntryFlow.mapKeys_loop f index (EntryFlow.mapValues_loop g index it)
       = EntryFlow.map_loop (fun key value i => (f key i, g value i))
           index it.
Proof.
  induction it as [|[key value] rest IH]; intro index; simpl;
    [now split|].
  destruct (IH (S index)) as [IH1 IH2]. now rewrite IH1, IH2.
Qed.

(** X17. [mapKeys] leaves the values as they are and [mapValues] leaves
    the keys as they are, in the same order; the two commute, and in
    either order they are the [map] that maps both sides at once. *)
Theorem EntryFlow_mapKeys_mapValues_commute :
  forall (K V U W : Type) (f : K -> nat -> U) (g : V -> nat -> W)
         (this : EntryFlow.EntryFlow K V),
    map snd (EntryFlow.toArray (EntryFlow.mapKeys f this))
    = map snd (EntryFlow.toArray this)
    /\ map fst (EntryFlow.toArray (EntryFlow.mapValues g this))
       = map fst (EntryFlow.toArray this)
    /\ EntryFlow.toArray (EntryFlow.mapValues g (EntryFlow.mapKeys f this))
       = EntryFlow.toArray
           (EntryFlow.map (fun key value index => (f key index, g value index))
              this)
    /\ EntryFlow.toArray (EntryFlow.mapKeys f (EntryFlow.mapValues g this))
       = EntryFlow.toArray
           (EntryFlow.map (fun key value index => (f key index, g value index))
              this).
Proof.
  intros K V U W f g this.
  unfold EntryFlow.mapKeys, EntryFlow.mapValues, EntryFlow.map,
    EntryFlow.toArray.
  rewrite !EntryFlow_iterate_of_iterable.
  split; [apply mapKeys_loop_values|]. split; [apply mapValues_loop_keys|].
  apply mapKeys_mapValues_loop.
Qed.

Lemma distinctKeys_loop_keys {V : Type} (it : list (jsval * V)) :
  forall seen : JsSet.t,
    map fst (EntryFlow.distinctKeys_loop seen it)
    = first_seen seen (map fst it).
Proof.
  induction it as [|[key value] rest IH]; intro seen; simpl;
    [reflexivity|].
  unfold JsSet.has, JsSet.add, JsSet.has.
  destruct (existsb (fun v => same_value_zero v key) seen) eqn:E; simpl.
  - apply IH.
  - now rewrite IH.
Qed.

Lemma distinctKeys_loop_first_value {V : Type} (it : list (jsval * V)) :
  forall (seen : JsSet.t) key,
    existsb (fun v => same_value_zero v key) seen = false ->
    first_value key (EntryFlow.distinctKeys_loop seen it)
    = first_value key it.
Proof.
  unfold first_value.
  induction it as [|[k value] rest IH]; intros seen key Hkey; simpl;
    [reflexivity|].
  unfold JsSet.has, JsSet.add, JsSet.has.
  destruct (existsb (fun v => same_value_zero v k) seen) eqn:E; simpl.
  - destruct (same_value_zero k key) eqn:Ek; [|now apply IH].
    apply existsb_exists in E. destruct E as (k' & Hin & Hk').
    apply (existsb_false_In _ _ _ Hkey) in Hin.
    now rewrite (same_value_zero_trans _ _ _ Hk' Ek) in Hin.
  - destruct (same_value_zero k key) eqn:Ek; [reflexivity|].
    apply IH. rewrite existsb_app, Hkey. simpl. now rewrite Ek.
Qed.

(** X18. [distinctKeys] keeps, for every key, the first pair with that
    key and drops the later ones: the keys of the result are the keys of
    the receiver in the order in which they are first seen, no two of them
    the same, and each has the value of its first pair.  These are the
    keys, in the same order, of [toMap], which keeps the last value
    instead. *)
Theorem EntryFlow_distinctKeys_first_wins :
  forall (V : Type) (this : EntryFlow.EntryFlow jsval V),
    map fst (EntryFlow.toArray (EntryFlow.distinctKeys this))
    = first_seen [] (map fst (EntryFlow.toArray this))
    /\ distinct (map fst (EntryFlow.toArray (EntryFlow.distinctKeys this)))
    /\ (forall key,
          first_value key (EntryFlow.toArray (EntryFlow.distinctKeys this))
          = first_value key (EntryFlow.toArray this))
    /\ map fst (EntryFlow.toArray (EntryFlow.distinctKeys this))
       = map fst (JsMap.entries (EntryFlow.toMap this)).
Proof.
  intros V this.
  unfold EntryFlow.distinctKeys, EntryFlow.toMap, EntryFlow.reduce,
    EntryFlow.toArray, JsMap.entries.
  rewrite !EntryFlow_iterate_of_iterable, distinctKeys_loop_keys.
  rewrite EntryFlow_reduce_loop_set_all, (keys_set_all _ []).
  split; [reflexivity|]. split; [|split; [|reflexivity]].
  - apply (first_seen_distinct _ [] I).
  - intro key. now apply distinctKeys_loop_first_value.
Qed.

Lemma EntryFlow_filter_loop_ignoring_index {K V : Type}
    (accept : K -> V -> bool) (it : list (K * V)) :
  forall index,
    EntryFlow.filter_loop (fun key value _ => accept key value) index it
    = filter (fun entry => accept (fst entry) (snd entry)) it.
Proof.
  induction it as [|entry rest IH]; intro index; simpl; [reflexivity|].
  now rewrite IH.
Qed.

(** X19. [remove], [removeKeys] and [removeValues] never pass an index:
    the predicate is called with the key or value alone, and the pairs
    kept are exactly those on which it then answers false, in order. *)
Theorem EntryFlow_remove_passes_no_index :
  forall (K V : Type) (onPair : K -> V -> option nat -> bool)
         (onKey : K -> option nat -> bool) (onValue : V -> option nat -> bool)
         (this : EntryFlow.EntryFlow K V),
    EntryFlow.toArray (EntryFlow.remove onPair this)
    = filter (fun entry => negb (onPair (fst entry) (snd entry) None))
        (EntryFlow.toArray this)
    /\ EntryFlow.toArray (EntryFlow.removeKeys onKey this)
       = filter (fun entry => negb (onKey (fst entry) None))
           (EntryFlow.toArray this)
    /\ EntryFlow.toArray (EntryFlow.removeValues onValue this)
       = filter (fun entry => negb (onValue (snd entry) None))
           (EntryFlow.toArray this).
Proof.
  intros K V onPair onKey onValue this.
  unfold EntryFlow.remove, EntryFlow.removeKeys, EntryFlow.removeValues,
    EntryFlow.filter, EntryFlow.filterKeys, EntryFlow.filterValues,
    EntryFlow.toArray.
  rewrite !EntryFlow_iterate_of_iterable.
  split; [|split].
  - apply (EntryFlow_filter_loop_ignoring_index
             (fun key value => negb (onPair key value None))).
  - apply (filterKeys_ignoring_index (fun key => negb (onKey key None))).
  - apply (filterValues_ignoring_index
             (fun value => negb (onValue value None))).
Qed.

Lemma keys_loop_map {V : Type} (it : list (jsval * V)) :
  EntryFlow.keys_loop it = map fst it.
Proof.
  induction it as [|[key value] rest IH]; simpl; [reflexivity|].
  now rewrite IH.
Qed.

Lemma values_loop_map {K : Type} (it : list (K * jsval)) :
  EntryFlow.values_loop it = map snd it.
Proof.
  induction it as [|[key value] rest IH]; simpl; [reflexivity|].
  now rewrite IH.
Qed.

Lemma mapToEntry_loop_sides {K V : Type} (keyMapper : jsval -> nat -> K)
    (valueMapper : jsval -> nat -> V) (it : list jsval) :
  forall index,
    map fst (Flow_mapToEntry_loop keyMapper valueMapper index it)
    = map (fun call => keyMapper (fst call) (snd call)) (calls_on index it)
    /\ map snd (Flow_mapToEntry_loop keyMapper valueMapper index it)
       = map (fun call => valueMapper (fst call) (snd call))
           (calls_on index it).
Proof.
  unfold calls_on.
  induction it as [|value rest IH]; intro index; simpl; [now split|].
  destruct (IH (S index)) as [IH1 IH2]. now rewrite IH1, IH2.
Qed.

(** X20. [mapToEntry] pairs, for every element, what the key mapper and
    the value mapper give on it: the [keys()] of the result are the [map]
    of the receiver by the key mapper and its [values()] the [map] by the
    value mapper, and it has one pair per element. *)
Theorem Flow_mapToEntry_keys_values :
  forall (keyMapper valueMapper : jsval -> nat -> jsval) (this : Flow.Flow),
    Flow.toArray (EntryFlow.keys (Flow_mapToEntry keyMapper valueMapper this))
    = Flow.toArray (Flow.map keyMapper this)
    /\ Flow.toArray
         (EntryFlow.values (Flow_mapToEntry keyMapper valueMapper this))
       = Flow.toArray (Flow.map valueMapper this)
    /\ EntryFlow.count (Flow_mapToEntry keyMapper valueMapper this)
       = Flow.count this.
Proof.
  intros keyMapper valueMapper this.
  unfold EntryFlow.keys, EntryFlow.values, Flow_mapToEntry, Flow.map,
    EntryFlow.count, Flow.count, Flow.toArray.
  rewrite !Flow_iterate_of_iterable, !EntryFlow_iterate_of_iterable.
  rewrite keys_loop_map, values_loop_map, !map_loop_calls.
  destruct (mapToEntry_loop_sides keyMapper valueMapper
              (Flow.iterate this) 0) as [H1 H2].
  split; [exact H1|]. split; [exact H2|].
  rewrite count_loop_length.
  clear. generalize 0%nat at 1 3. generalize 0%nat.
  induction (Flow.iterate this) as [|v l IH]; intros i n; simpl;
    [lia|].
  rewrite IH. lia.
Qed.

End EntryFlowAlgebra.

(** ** EntryFlow: collapseKeys and grouping on every input *)

Section EntryFlowGroups.
Context {V : Type}.

(** X21. On pairs whose keys are all truthy, [collapseKeys] yields the
    maximal runs of consecutive pairs with the same key: the runs hold the
    pairs of the receiver in order, each under a key [===] to its own, no
    run is empty, and two runs in a row have different keys. *)
Theorem EntryFlow_collapseKeys_truthy_keys
    (this : EntryFlow.EntryFlow jsval V) :
  Forall (fun entry => truthy (fst entry) = true) (EntryFlow.toArray this) ->
  EntryFlow.toArray (EntryFlow.collapseKeys this)
  = runs (EntryFlow.toArray this)
  /\ Forall2 (fun entry entry' =>
                strict_eq (fst entry) (fst entry') = true
                /\ snd entry = snd entry')
       (EntryFlow.toArray this)
       (expand (EntryFlow.toArray (EntryFlow.collapseKeys this)))
  /\ Forall (fun group => snd group <> [])
       (EntryFlow.toArray (EntryFlow.collapseKeys this))
  /\ adjacent_differ (EntryFlow.toArray (EntryFlow.collapseKeys this)).
Proof.
  intro Htruthy. rewrite (collapseKeys_truthy_runs this Htruthy).
  split; [reflexivity|]. apply runs_are_runs.
Qed.

Lemma values_of_same key key' (entries : list (jsval * V)) :
  same_value_zero key key' = true ->
  values_of key entries = values_of key' entries.
Proof.
  intro H. unfold values_of. f_equal. apply filter_ext. intro entry.
  rewrite (same_value_zero_sym (fst entry) key),
    (same_value_zero_sym (fst entry) key').
  now apply same_value_zero_congr.
Qed.

Lemma first_value_groups (entries : list (jsval * V)) key :
  forall keys,
    first_value key (map (fun k => (k, values_of k entries)) keys)
    = if existsb (fun k => same_value_zero k key) keys
      then Some (values_of key entries)
      else None.
Proof.
  unfold first_value.
  induction keys as [|k keys IH]; simpl; [reflexivity|].
  destruct (same_value_zero k key) eqn:E; simpl; [|exact IH].
  now rewrite (values_of_same k key entries E).
Qed.

(** X22. [grouping] yields one pair per key, whatever the order of the
    pairs of the receiver: the keys are those of the receiver in the order
    in which they are first seen, no two of them the same, and the value
    found under a key is the list, in order, of the values of all the
    pairs with that key. *)
Theorem EntryFlow_grouping_by_key :
  forall this : EntryFlow.EntryFlow jsval V,
    map fst (EntryFlow.toArray (EntryFlow.grouping this))
    = first_seen [] (map fst (EntryFlow.toArray this))
    /\ distinct (map fst (EntryFlow.toArray (EntryFlow.grouping this)))
    /\ (forall key,
          first_value key (EntryFlow.toArray (EntryFlow.grouping this))
          = if existsb (fun k => same_value_zero k key)
                 (map fst (EntryFlow.toArray this))
            then Some (values_of key (EntryFlow.toArray this))
            else None).
Proof.
  intro this. rewrite grouping_groups. unfold groups.
  rewrite map_map. simpl. rewrite map_id.
  split; [reflexivity|]. split.
  - apply (first_seen_distinct _ [] I).
  - intro key. rewrite first_value_groups.
    pose proof (first_seen_members
                  (map fst (EntryFlow.toArray this)) [] key) as H.
    simpl in H. now rewrite H.
Qed.

End EntryFlowGroups.

Lemma EntryFlow_collapseKeys_truthy_keys_witness :
  Forall (fun entry => truthy (fst entry) = true)
    (EntryFlow.toArray
       (EntryFlow.of_
          (EntryFlow.Iterable
             [(VStr "a", 1); (VStr "a", 2); (VStr "b", 3); (VStr "a", 4)])))
  /\ EntryFlow.toArray
       (EntryFlow.collapseKeys
          (EntryFlow.of_
             (EntryFlow.Iterable
                [(VStr "a", 1); (VStr "a", 2); (VStr "b", 3); (VStr "a", 4)])))
     = runs [(VStr "a", 1); (VStr "a", 2); (VStr "b", 3); (VStr "a", 4)].
Proof.
  assert (H : Forall (fun entry : jsval * Z => truthy (fst entry) = true)
                (EntryFlow.toArray
                   (EntryFlow.of_
                      (EntryFlow.Iterable
                         [(VStr "a", 1); (VStr "a", 2); (VStr "b", 3);
                          (VStr "a", 4)])))).
  { repeat constructor. }
  split; [exact H|].
  exact (proj1 (EntryFlow_collapseKeys_truthy_keys _ H)).
Defined.

(** ** PromiseItem *)

Section PromiseItemProperties.

(** X23. [mapError] settles only when the receiver is rejected: it then
    takes the outcome of the mapper, a [throw] of the mapper being a
    rejection.  On a fulfilled receiver nothing ever settles the result,
    which stays pending for ever. *)
Theorem PromiseItem_mapError_settles_on_rejection_only :
  forall (mapper : jsval -> completion PromiseItem.resolution)
         (this : PromiseItem.PromiseItem),
    PromiseItem.mapError mapper this
    = match this with
      | Some (Rejected error) =>
          match mapper error with
          | Return (PromiseItem.Plain value) => Some (Fulfilled value)
          | Return (PromiseItem.Thenable pending) => pending
          | Throw error' => Some (Rejected error')
          end
      | Some (Fulfilled _) => None
      | None => None
      end.
Proof.
  intros mapper [[value|error]|]; simpl; try reflexivity.
  destruct (mapper error) as [[value|pending]|error']; reflexivity.
Qed.

(** X24. [ifThrown] never changes the outcome: the result settles as the
    receiver does, with the same value or the same error, also when the
    consumer throws. *)
Theorem PromiseItem_ifThrown_keeps_outcome :
  forall (consumer : jsval -> completion unit)
         (this : PromiseItem.PromiseItem),
    PromiseItem.ifThrown consumer this = this.
Proof.
  intros consumer [[value|error]|]; simpl; try reflexivity.
  destruct (is_nullish error); simpl; [reflexivity|].
  now destruct (consumer error).
Qed.

(** X25. A rejection passes through every combinator but [mapError]
    unchanged: on a rejected receiver [map], [filter], [filterBy],
    [remove], [removeBy], [ifPresent], [ifEmpty], [isPresent], [isEmpty],
    [or], [orElse], [orElseGet] and [orElseThrow] are rejected with the
    same error, whatever their arguments are: the fallbacks of [or] and
    [orElse] do not recover from a failure. *)
Theorem PromiseItem_rejection_passes_through :
  forall (error : jsval)
         (mapper : jsval -> completion PromiseItem.resolution)
         (predicate : jsval -> completion bool)
         (extractor : jsval -> completion jsval)
         (consumer : jsval -> completion unit)
         (action : unit -> completion unit)
         (alternative : unit -> completion PromiseItem.PromiseItem)
         (other : PromiseItem.resolution)
         (supplier : unit -> completion PromiseItem.resolution)
         (arg : PromiseItem.supplierOrError),
    let this := Some (Rejected error) in
    PromiseItem.map mapper this = this
    /\ PromiseItem.filter predicate this = this
    /\ PromiseItem.filterBy extractor predicate this = this
    /\ PromiseItem.remove predicate this = this
    /\ PromiseItem.removeBy extractor predicate this = this
    /\ PromiseItem.ifPresent consumer this = this
    /\ PromiseItem.ifEmpty action this = this
    /\ PromiseItem.isPresent this = this
    /\ PromiseItem.isEmpty this = this
    /\ PromiseItem.or alternative this = this
    /\ PromiseItem.orElse other this = this
    /\ PromiseItem.orElseGet supplier this = this
    /\ PromiseItem.orElseThrow arg this = this.
Proof. intros. repeat split. Qed.

(** X26. On a fulfilled receiver and with callbacks that return plain
    values, the asynchronous Optional does what the synchronous one does:
    [map], [orElse] and [isPresent] end fulfilled with the value that
    [Item] computes, and [filter] and [filterBy] end fulfilled, empty
    exactly when the [Item] result is empty and otherwise with its
    value. *)
Theorem PromiseItem_agrees_with_Item :
  forall (value other : jsval) (f extractor : jsval -> jsval)
         (p : jsval -> bool),
    let this := PromiseItem.of_ (PromiseItem.Plain value) in
    let item := Item.of_ value in
    PromiseItem.map (fun v => Return (PromiseItem.Plain (f v))) this
    = Some (Fulfilled (Item.value (Item.map f item)))
    /\ PromiseItem.orElse (PromiseItem.Plain other) this
       = Some (Fulfilled (Item.orElse other item))
    /\ PromiseItem.isPresent this
       = Some (Fulfilled (VBool (Item.isPresent item)))
    /\ settles_like (PromiseItem.filter (fun v => Return (p v)) this)
         (Item.filter p item)
    /\ settles_like
         (PromiseItem.filterBy (fun v => Return (extractor v))
            (fun v => Return (p v)) this)
         (Item.filterBy extractor p item).
Proof.
  intros value other f extractor p. cbv zeta.
  unfold settles_like, PromiseItem.map, PromiseItem.orElse,
    PromiseItem.isPresent, PromiseItem.filter, PromiseItem.filterBy,
    PromiseItem.of_, Item.map, Item.orElse, Item.isPresent, Item.filter,
    Item.filterBy, Item.isEmpty, Item.of_, Item.empty.
  simpl.
  destruct (is_nullish value) eqn:Hv; simpl;
    destruct (p value) eqn:Hp; simpl;
    destruct (is_nullish (extractor value)) eqn:He; simpl;
    destruct (p (extractor value)) eqn:Hq; simpl;
    rewrite ?Hv; simpl;
    (split; [reflexivity|]); (split; [reflexivity|]);
    (split; [reflexivity|]);
    split; eexists; (split; [reflexivity|]); simpl; rewrite ?Hv; simpl;
    split; reflexivity || exact I.
Qed.

(** X27. [filterBy] and [removeBy] on a receiver fulfilled with [null] or
    [undefined] end fulfilled with [undefined] whatever the extractor and
    the predicate do, a [throw] included: the first [resolve] has
    settled the result before the extractor runs. *)
Theorem PromiseItem_filterBy_on_empty :
  forall (extractor : jsval -> completion jsval)
         (predicate : jsval -> completion bool),
    PromiseItem.filterBy extractor predicate
      (PromiseItem.of_ (PromiseItem.Plain VNull))
    = PromiseItem.empty
    /\ PromiseItem.filterBy extractor predicate PromiseItem.empty
       = PromiseItem.empty
    /\ PromiseItem.removeBy extractor predicate
         (PromiseItem.of_ (PromiseItem.Plain VNull))
       = PromiseItem.empty
    /\ PromiseItem.removeBy extractor predicate PromiseItem.empty
       = PromiseItem.empty.
Proof.
  intros extractor predicate.
  unfold PromiseItem.filterBy, PromiseItem.removeBy, PromiseItem.of_,
    PromiseItem.empty.
  simpl.
  repeat split;
    repeat match goal with
      | |- context [match ?c with _ => _ end] => destruct c; simpl
      end; reflexivity.
Qed.

End PromiseItemProperties.

(** ** PromiseFlow *)

Section PromiseFlowProperties.

Lemma asyncIterate_of_iterator it :
  PromiseFlow.asyncIterate (PromiseFlow.of_ (PromiseFlow.AsyncIterator it))
  = it.
Proof. unfold PromiseFlow.asyncIterate. simpl. apply app_nil_r. Qed.

Lemma asyncIterate_fulfilled_flow this :
  PromiseFlow.asyncIterate (fulfilled_flow this)
  = map Fulfilled (Flow.iterate this).
Proof.
  unfold PromiseFlow.asyncIterate, fulfilled_flow, Flow.iterate. simpl.
  symmetry. apply concat_map.
Qed.

Lemma toArray_loop_fulfilled (values : list jsval) rest :
  forall array,
    PromiseFlow.toArray_loop array (map Fulfilled values ++ rest)
    = PromiseFlow.toArray_loop (array ++ values) rest.
Proof.
  induction values as [|value values IH]; intro array; simpl.
  - now rewrite app_nil_r.
  - rewrite IH. now rewrite <- app_assoc.
Qed.

Lemma values_loop_fulfilled (values : list jsval) rest :
  forall array,
    PromiseFlow.values_loop array (map Fulfilled values ++ rest)
    = PromiseFlow.values_loop (array ++ values) rest.
Proof.
  induction values as [|value values IH]; intro array; simpl.
  - now rewrite app_nil_r.
  - rewrite IH. now rewrite <- app_assoc.
Qed.

Lemma count_loop_fulfilled (values : list jsval) rest :
  forall count,
    PromiseFlow.count_loop count (map Fulfilled values ++ rest)
    = PromiseFlow.count_loop (count + length values) rest.
Proof.
  induction values as [|value values IH]; intro count; simpl.
  - now rewrite Nat.add_0_r.
  - rewrite IH. now rewrite <- plus_n_Sm.
Qed.

Lemma map_loop_fulfilled mapper (values : list jsval) rest :
  forall index,
    PromiseFlow.map_loop mapper index (map Fulfilled values ++ rest)
    = map Fulfilled (Flow.map_loop mapper index values)
        ++ PromiseFlow.map_loop mapper (index + length values) rest.
Proof.
  induction values as [|value values IH]; intro index; simpl.
  - now rewrite Nat.add_0_r.
  - rewrite IH. now rewrite <- plus_n_Sm.
Qed.

Lemma filter_loop_fulfilled predicate (values : list jsval) rest :
  forall index,
    PromiseFlow.filter_loop predicate index (map Fulfilled values ++ rest)
    = map Fulfilled (Flow.filter_loop predicate index values)
        ++ PromiseFlow.filter_loop predicate (index + length values) rest.
Proof.
  induction values as [|value values IH]; intro index; simpl.
  - now rewrite Nat.add_0_r.
  - rewrite IH, <- plus_n_Sm. now destruct (predicate value index).
Qed.

Lemma some_loop_fulfilled predicate (values : list jsval) :
  forall index,
    PromiseFlow.some_loop predicate index (map Fulfilled values)
    = Fulfilled (fst (fst (Flow.some_loop predicate index values))).
Proof.
  induction values as [|value values IH]; intro index; simpl;
    [reflexivity|].
  destruct (predicate value index); [reflexivity|].
  rewrite IH. now destruct (Flow.some_loop predicate (S index) values)
    as [[r c] l].
Qed.

Lemma every_loop_fulfilled predicate (values : list jsval) :
  forall index,
    PromiseFlow.every_loop predicate index (map Fulfilled values)
    = Fulfilled (fst (fst (Flow.every_loop predicate index values))).
Proof.
  induction values as [|value values IH]; intro index; simpl;
    [reflexivity|].
  destruct (predicate value index); simpl; [|reflexivity].
  rewrite IH. now destruct (Flow.every_loop predicate (S index) values)
    as [[r c] l].
Qed.

(** X28. When every pull is fulfilled, the asynchronous pipeline does
    what the synchronous one does on the same elements: [toArray], and
    [toArray] after [map], [filter], [sort] and [reverse], are fulfilled
    with the array of the synchronous flow, and [count], [some], [every]
    and [findFirst] with its answers. *)
Theorem PromiseFlow_agrees_with_Flow :
  forall (mapper : jsval -> nat -> jsval) (predicate : jsval -> nat -> bool)
         (comparator : option (jsval -> jsval -> Z)) (this : Flow.Flow),
    PromiseFlow.toArray (fulfilled_flow this)
    = Fulfilled (Flow.toArray this)
    /\ PromiseFlow.toArray (PromiseFlow.map mapper (fulfilled_flow this))
       = Fulfilled (Flow.toArray (Flow.map mapper this))
    /\ PromiseFlow.toArray
         (PromiseFlow.filter predicate (fulfilled_flow this))
       = Fulfilled (Flow.toArray (Flow.filter predicate this))
    /\ PromiseFlow.toArray (PromiseFlow.sort comparator (fulfilled_flow this))
       = Fulfilled (Flow.toArray (Flow.sort comparator this))
    /\ PromiseFlow.toArray (PromiseFlow.reverse (fulfilled_flow this))
       = Fulfilled (Flow.toArray (Flow.reverse this))
    /\ PromiseFlow.count (fulfilled_flow this) = Fulfilled (Flow.count this)
    /\ PromiseFlow.some predicate (fulfilled_flow this)
       = Fulfilled (Flow.some predicate this)
    /\ PromiseFlow.every predicate (fulfilled_flow this)
       = Fulfilled (Flow.every predicate this)
    /\ PromiseFlow.findFirst (fulfilled_flow this)
       = Fulfilled (Flow.findFirst this).
Proof.
  intros mapper predicate comparator this.
  unfold PromiseFlow.toArray, PromiseFlow.map, PromiseFlow.filter,
    PromiseFlow.sort, PromiseFlow.reverse, PromiseFlow.count,
    PromiseFlow.some, PromiseFlow.every, PromiseFlow.findFirst,
    Flow.map, Flow.filter, Flow.sort, Flow.reverse, Flow.Array_from,
    Flow.count, Flow.some, Flow.some_run, Flow.every, Flow.every_run,
    Flow.findFirst, Flow.findFirst_rest, Flow.toArray.
  rewrite !asyncIterate_of_iterator, !asyncIterate_fulfilled_flow,
    !Flow_iterate_of_iterable.
  pose proof (toArray_loop_fulfilled (Flow.iterate this) [] []) as Ha.
  pose proof (values_loop_fulfilled (Flow.iterate this) [] []) as Hv.
  pose proof (map_loop_fulfilled mapper (Flow.iterate this) [] 0) as Hm.
  pose proof (filter_loop_fulfilled predicate (Flow.iterate this) [] 0)
    as Hf.
  pose proof (count_loop_fulfilled (Flow.iterate this) [] 0) as Hc.
  rewrite app_nil_r in Ha, Hv, Hm, Hf, Hc. simpl in Ha, Hv, Hm, Hf, Hc.
  rewrite app_nil_r in Hm, Hf.
  rewrite Ha, Hv, Hm, Hf, Hc. simpl.
  repeat split.
  - rewrite <- (app_nil_r (map Fulfilled (Flow.map_loop _ _ _))).
    now rewrite toArray_loop_fulfilled.
  - rewrite <- (app_nil_r (map Fulfilled (Flow.filter_loop _ _ _))).
    now rewrite toArray_loop_fulfilled.
  - rewrite <- (app_nil_r (map Fulfilled (array_sort _ _))).
    now rewrite toArray_loop_fulfilled.
  - rewrite <- (app_nil_r (map Fulfilled (rev _))).
    now rewrite toArray_loop_fulfilled.
  - now rewrite count_loop_length.
  - apply some_loop_fulfilled.
  - apply every_loop_fulfilled.
  - now destruct (Flow.iterate this).
Qed.

(** X29. When a pull is rejected after some fulfilled ones, [toArray]
    and [count] are rejected with its reason.  [map] still yields the
    mapped elements before the rejection and then rejects, while [sort]
    and [reverse], which drain the source before they yield, yield no
    element at all: their first pull is rejected.  [findFirst] is
    fulfilled with the first element when there is one before the
    rejection. *)
Theorem PromiseFlow_rejected_pull :
  forall (values : list jsval) (reason : jsval) (rest : list (promise jsval))
         (mapper : jsval -> nat -> jsval)
         (comparator : option (jsval -> jsval -> Z)),
    let this :=
      PromiseFlow.of_
        (PromiseFlow.AsyncIterator
           (map Fulfilled values ++ Rejected reason :: rest)) in
    PromiseFlow.toArray this = Rejected reason
    /\ PromiseFlow.count this = Rejected reason
    /\ PromiseFlow.asyncIterate (PromiseFlow.map mapper this)
       = map Fulfilled (Flow.map_loop mapper 0 values) ++ [Rejected reason]
    /\ PromiseFlow.asyncIterate (PromiseFlow.sort comparator this)
       = [Rejected reason]
    /\ PromiseFlow.asyncIterate (PromiseFlow.reverse this)
       = [Rejected reason]
    /\ PromiseFlow.findFirst this
       = match values with
         | value :: _ => Fulfilled (Item.of_ value)
         | [] => Rejected reason
         end.
Proof.
  intros values reason rest mapper comparator. cbv zeta.
  unfold PromiseFlow.toArray, PromiseFlow.count, PromiseFlow.map,
    PromiseFlow.sort, PromiseFlow.reverse, PromiseFlow.findFirst.
  rewrite !asyncIterate_of_iterator.
  rewrite toArray_loop_fulfilled, count_loop_fulfilled, map_loop_fulfilled,
    values_loop_fulfilled.
  simpl. repeat split. now destruct values.
Qed.

Lemma some_loop_short_circuit accept (values : list jsval) rest :
  existsb accept values = true ->
  forall index,
    PromiseFlow.some_loop (fun value _ => accept value) index
      (map Fulfilled values ++ rest)
    = Fulfilled true.
Proof.
  induction values as [|value values IH]; simpl; [discriminate|].
  intros H index. destruct (accept value); [reflexivity|].
  now apply IH.
Qed.

Lemma every_loop_short_circuit accept (values : list jsval) rest :
  existsb accept values = true ->
  forall index,
    PromiseFlow.every_loop (fun value _ => negb (accept value)) index
      (map Fulfilled values ++ rest)
    = Fulfilled false.
Proof.
  induction values as [|value values IH]; simpl; [discriminate|].
  intros H index. destruct (accept value); [reflexivity|].
  now apply IH.
Qed.

(** X30. [some] and [every] stop pulling at the element that decides
    them: when one of the elements pulled before a failure satisfies the
    predicate, [some] is fulfilled with [true] and [every] of the negated
    predicate with [false], whatever the later pulls would have given, a
    rejection included. *)
Theorem PromiseFlow_some_short_circuits
    (accept : jsval -> bool) (values : list jsval)
    (rest : list (promise jsval)) :
  existsb accept values = true ->
  PromiseFlow.some (fun value _ => accept value)
    (PromiseFlow.of_
       (PromiseFlow.AsyncIterator (map Fulfilled values ++ rest)))
  = Fulfilled true
  /\ PromiseFlow.every (fun value _ => negb (accept value))
       (PromiseFlow.of_
          (PromiseFlow.AsyncIterator (map Fulfilled values ++ rest)))
     = Fulfilled false.
Proof.
  intro H. unfold PromiseFlow.some, PromiseFlow.every.
  rewrite !asyncIterate_of_iterator. split.
  - now apply some_loop_short_circuit.
  - now apply every_loop_short_circuit.
Qed.

Lemma PromiseFlow_some_short_circuits_witness :
  existsb (fun v => truthy v) [VNum 0; VNum 1] = true
  /\ PromiseFlow.some (fun value _ => truthy value)
       (PromiseFlow.of_
          (PromiseFlow.AsyncIterator
             (map Fulfilled [VNum 0; VNum 1] ++ [Rejected (VStr "late")])))
     = Fulfilled true.
Proof.
  split; [reflexivity|].
  exact (proj1 (PromiseFlow_some_short_circuits
                  (fun v => truthy v) [VNum 0; VNum 1]
                  [Rejected (VStr "late")] eq_refl)).
Defined.

End PromiseFlowProperties.
